(** * Arcaneering production calculator: the resolution engine, verified

    A shallow embedding of [ProductionCalculator] (calculator.py): recipe
    selection under phase and alternate constraints, raw-cost estimation,
    recursive chain construction and the aggregation of a production tree.
    The graph view that the web front end draws from a tree
    ([build_graph_view], web_calculator.py) is the module [web_calculator].

    Modelling conventions.
    - Python [float] is IEEE 754 binary64: it is Rocq's primitive [float],
      whose operations round exactly as the interpreter's do.
    - Python [int] is [Z].  An [int] meeting a [float] in arithmetic is
      converted by [float_of_int], and the true division of two ints is the
      division of their conversions: both are what the interpreter computes
      for quantities below 2^53, which convert exactly; larger quantities
      are outside the model.
    - A [str] is a [string] of bytes.  Identifiers and names are ASCII text
      (the game's resources are upper-case words joined by underscores), on
      which [str.title] is [title]; text with other characters is outside
      the model.
    - A [dict] that is iterated is an association list in insertion order
      (keys are unique in Python); a [dict] that is only looked up and
      updated is a [gmap]; a [set] is a [gset].
    - Division by zero raises [ZeroDivisionError] in Python; the recursion
      depth of the interpreter is finite and exhausting it raises
      [RecursionError].  Both are outcomes of the [result] monad, and every
      recursive method takes the remaining recursion depth as its first
      argument. *)

From Stdlib Require Import ZArith String Ascii List Floats Uint63 Bool Lia.
From stdpp Require Import gmap strings list fin_maps sorting.

Local Open Scope string_scope.
Set Warnings "-register-all".

(** ** Outcomes of a call *)

Inductive exn : Set := RecursionError | ZeroDivisionError.

Inductive result (A : Type) : Type :=
| Ok (a : A)
| Raise (e : exn).
Arguments Ok {A} a.
Arguments Raise {A} e.

#[global] Instance result_ret : MRet result := @Ok.
#[global] Instance result_bind : MBind result := fun A B f m =>
  match m with
  | Ok a => f a
  | Raise e => Raise e
  end.

(** ** Numbers *)

(** [float(z)] for a Python int. *)
Definition float_of_int (z : Z) : float :=
  match z with
  | Z0 => 0%float
  | Zpos _ => of_uint63 (Uint63.of_Z z)
  | Zneg p => (- of_uint63 (Uint63.of_Z (Zpos p)))%float
  end.

(** [a / b] on two ints (true division). *)
Definition int_truediv (a b : Z) : result float :=
  if (b =? 0)%Z then Raise ZeroDivisionError
  else Ok (float_of_int a / float_of_int b)%float.

(** [x / y] on two floats. *)
Definition float_truediv (x y : float) : result float :=
  if (y =? 0)%float then Raise ZeroDivisionError else Ok (x / y)%float.

(** ** Data model *)

Record Recipe : Type := mkRecipe {
  id : string;
  display_name : string;
  inputs : list (string * Z);
  outputs : list (string * Z);
  production_time : float;
  building_type : string;
  required_research : string;
  energy_consumption : Z;
  mana_consumption : float;
  phase : Z;
  alternate_recipe : bool
}.

(** The field [building_type] of a node is [node_building_type] here: the
    name is taken by [Recipe]. *)
Inductive ProductionNode : Type := mkNode {
  resource : string;
  quantity_per_minute : float;
  recipe : option Recipe;
  node_building_type : string;
  building_count : float;
  depth : Z;
  children : list ProductionNode
}.

(** [d.get(k, default)] on an insertion-ordered dict. *)
Fixpoint dict_get (d : list (string * Z)) (k : string) (default : Z) : Z :=
  match d with
  | [] => default
  | (k', v) :: d' => if String.eqb k' k then v else dict_get d' k default
  end.

Record ProductionCalculator : Type := mkCalculator {
  recipes : list (string * Recipe);
  recipes_by_output : gmap string (list Recipe);
  display_name_map : gmap string string
}.

Definition BASE_RESOURCES : gset string :=
  {[ "ORE"; "MAGIC_ESSENCE"; "SUNDROP"; "GOLD_ORE"; "ARCANE_CRYSTAL"; "COAL";
     "CINDER"; "WATER"; "OIL"; "LIMESTONE"; "COPPER_ORE"; "TIN_ORE"; "SLAG";
     "SILVER_ORE"; "CRYSTAL_ORE"; "ADAMANTINE_ORE"; "VOIDSTONE_ORE" ]}.

Definition in_base (r : string) : bool := bool_decide (r ∈ BASE_RESOURCES).

(** ** Recipe index *)

(** [self.recipes_by_output[o].append(recipe)] on a [defaultdict(list)]. *)
Definition index_append (idx : gmap string (list Recipe)) (o : string) (r : Recipe)
  : gmap string (list Recipe) :=
  <[o := (default [] (idx !! o) ++ [r])%list]> idx.

Definition _index_recipes (rs : list (string * Recipe)) : gmap string (list Recipe) :=
  fold_left
    (fun idx r => fold_left (fun idx o => index_append idx o r) (map fst (outputs r)) idx)
    (map snd rs) ∅.

(** [ProductionCalculator(recipes)] *)
Definition new_calculator (rs : list (string * Recipe)) : ProductionCalculator :=
  mkCalculator rs (_index_recipes rs) ∅.

Definition set_display_names (self : ProductionCalculator) (m : gmap string string)
  : ProductionCalculator :=
  mkCalculator (recipes self) (recipes_by_output self) m.

(** ** Recipe selection and raw-cost estimation *)

(** Lines 308-312: the phase filter and the alternate-recipe policy. *)
Definition phase_candidates (self : ProductionCalculator) (resource : string) (max_phase : Z)
  : list Recipe :=
  List.filter (fun r => (phase r <=? max_phase)%Z)
              (default [] (recipes_by_output self !! resource)).

Definition alternate_policy (allow_alternate : bool) (allowed_alternates : option (list string))
  (r : Recipe) : bool :=
  if negb allow_alternate then negb (alternate_recipe r)
  else match allowed_alternates with
       | Some l => negb (alternate_recipe r) || existsb (String.eqb (id r)) l
       | None => true
       end.

Definition candidates (self : ProductionCalculator) (resource : string) (max_phase : Z)
  (allow_alternate : bool) (allowed_alternates : option (list string)) : list Recipe :=
  List.filter (alternate_policy allow_alternate allowed_alternates)
              (phase_candidates self resource max_phase).

(** Lines 317-323: the scan of one candidate's inputs, left at the first
    non-base input whose estimate reaches the threshold.  [cost] is the
    estimate of line 320. *)
Fixpoint all_inputs_producible (cost : string → result float) (ins : list (string * Z))
  : result bool :=
  match ins with
  | [] => Ok true
  | (input_resource, _) :: rest =>
      if in_base input_resource then all_inputs_producible cost rest
      else
        input_cost ← cost input_resource;
        if (9999 <=? input_cost)%float then Ok false
        else all_inputs_producible cost rest
  end.

(** Lines 315-325. *)
Fixpoint valid_candidates (cost : string → result float) (cands : list Recipe)
  : result (list Recipe) :=
  match cands with
  | [] => Ok []
  | r :: rest =>
      ok ← all_inputs_producible cost (inputs r);
      valid ← valid_candidates cost rest;
      Ok (if ok : bool then r :: valid else valid)
  end.

(** Lines 333-340: the raw cost of one unit through a candidate. *)
Fixpoint candidate_raw_cost (cost : string → result float) (output_amount : Z)
  (ins : list (string * Z)) (raw_cost : float) : result float :=
  match ins with
  | [] => Ok raw_cost
  | (input_resource, input_amount) :: rest =>
      input_per_output ← int_truediv input_amount output_amount;
      if in_base input_resource then
        candidate_raw_cost cost output_amount rest (raw_cost + input_per_output)%float
      else
        input_cost ← cost input_resource;
        candidate_raw_cost cost output_amount rest
          (raw_cost + input_per_output * input_cost)%float
  end.

(** Lines 331-343: the ranking loop. *)
Fixpoint select_best (cost : string → result float) (resource : string)
  (valid : list Recipe) (best_recipe : Recipe) (best_raw_cost : float) : result Recipe :=
  match valid with
  | [] => Ok best_recipe
  | r :: rest =>
      raw_cost ← candidate_raw_cost cost (dict_get (outputs r) resource 1) (inputs r) 0%float;
      if (raw_cost <? best_raw_cost)%float
      then select_best cost resource rest r raw_cost
      else select_best cost resource rest best_recipe best_raw_cost
  end.

Section bodies.
Context (self : ProductionCalculator).

(** The callees of the two mutually recursive methods, one level down. *)
Context (get_best_recipe' :
           string → Z → bool → bool → option (list string) → result (option Recipe)).
Context (raw_cost' :
           string → Z → bool → gset string → option (list string) → result float).

Definition get_best_recipe_body (resource : string) (max_phase : Z) (prefer_efficient : bool)
  (allow_alternate : bool) (allowed_alternates : option (list string))
  : result (option Recipe) :=
  let cands := candidates self resource max_phase allow_alternate allowed_alternates in
  match cands with
  | [] => Ok None
  | _ =>
      valid ← valid_candidates (fun i => raw_cost' i max_phase allow_alternate ∅ None) cands;
      match valid with
      | [] => Ok None
      | first :: _ =>
          if prefer_efficient && (1 <? length valid)%nat then
            best ← select_best
                     (fun i => raw_cost' i max_phase allow_alternate ∅ allowed_alternates)
                     resource valid first infinity;
            Ok (Some best)
          else Ok (Some first)
      end
  end.

(** Lines 361-367: the loop of [_get_raw_cost_recursive]; the state is
    [(total_cost, valid_inputs)]. *)
Fixpoint raw_cost_inputs (cost : string → result float) (output_amount : Z)
  (ins : list (string * Z)) (total_cost : float) (valid_inputs : Z) : result (float * Z) :=
  match ins with
  | [] => Ok (total_cost, valid_inputs)
  | (input_resource, input_amount) :: rest =>
      if String.eqb input_resource "NONE" then
        raw_cost_inputs cost output_amount rest total_cost valid_inputs
      else
        input_per_output ← int_truediv input_amount output_amount;
        input_cost ← cost input_resource;
        raw_cost_inputs cost output_amount rest
          (total_cost + input_per_output * input_cost)%float (valid_inputs + 1)%Z
  end.

Definition raw_cost_body (resource : string) (max_phase : Z) (allow_alternate : bool)
  (visited : gset string) (allowed_alternates : option (list string)) : result float :=
  if in_base resource then Ok 1%float
  else if bool_decide (resource ∈ visited) then Ok 999999%float
  else
    let visited := {[resource]} ∪ visited in
    recipe ← get_best_recipe' resource max_phase false allow_alternate allowed_alternates;
    match recipe with
    | None => Ok 999999%float
    | Some recipe =>
        let output_amount := dict_get (outputs recipe) resource 1 in
        '(total_cost, valid_inputs) ←
          raw_cost_inputs
            (fun i => raw_cost' i max_phase allow_alternate visited allowed_alternates)
            output_amount (inputs recipe) 0%float 0%Z;
        if (valid_inputs =? 0)%Z then Ok 999999%float else Ok total_cost
    end.
End bodies.

(** [get_best_recipe] and [_get_raw_cost_recursive]; [limit] is the
    recursion depth left. *)
Fixpoint get_best_recipe (limit : nat) (self : ProductionCalculator) (resource : string)
  (max_phase : Z) (prefer_efficient allow_alternate : bool)
  (allowed_alternates : option (list string)) {struct limit} : result (option Recipe) :=
  match limit with
  | O => Raise RecursionError
  | S limit =>
      get_best_recipe_body self (_get_raw_cost_recursive limit self)
        resource max_phase prefer_efficient allow_alternate allowed_alternates
  end
with _get_raw_cost_recursive (limit : nat) (self : ProductionCalculator) (resource : string)
  (max_phase : Z) (allow_alternate : bool) (visited : gset string)
  (allowed_alternates : option (list string)) {struct limit} : result float :=
  match limit with
  | O => Raise RecursionError
  | S limit =>
      raw_cost_body (get_best_recipe limit self) (_get_raw_cost_recursive limit self)
        resource max_phase allow_alternate visited allowed_alternates
  end.

(** ** Chain construction *)

(** The three terminal nodes of [_build_chain_recursive]. *)
Definition terminal (label : string) (resource : string) (quantity_per_minute : float)
  (depth : Z) : ProductionNode :=
  mkNode resource quantity_per_minute None label 0%float depth [].

(** Lines 422-429: one child per input other than the placeholder. *)
Fixpoint build_children (build : string → float → result ProductionNode)
  (output_amount : Z) (quantity_per_minute : float) (ins : list (string * Z))
  : result (list ProductionNode) :=
  match ins with
  | [] => Ok []
  | (input_resource, input_amount) :: rest =>
      if String.eqb input_resource "NONE" then
        build_children build output_amount quantity_per_minute rest
      else
        ratio ← int_truediv input_amount output_amount;
        let input_per_minute := (ratio * quantity_per_minute)%float in
        child_node ← build input_resource input_per_minute;
        more ← build_children build output_amount quantity_per_minute rest;
        Ok (child_node :: more)
  end.

Fixpoint _build_chain_recursive (limit : nat) (self : ProductionCalculator) (resource : string)
  (quantity_per_minute : float) (visited : gset string) (depth : Z) (max_phase : Z)
  (allow_alternate : bool) (allowed_alternates : option (list string))
  {struct limit} : result ProductionNode :=
  match limit with
  | O => Raise RecursionError
  | S limit =>
      if in_base resource then
        Ok (terminal "Miner/Extractor" resource quantity_per_minute depth)
      else if bool_decide (resource ∈ visited) then
        Ok (terminal "CIRCULAR" resource quantity_per_minute depth)
      else
        let visited := {[resource]} ∪ visited in
        recipe ← get_best_recipe limit self resource max_phase true allow_alternate
                   allowed_alternates;
        match recipe with
        | None => Ok (terminal "NO RECIPE" resource quantity_per_minute depth)
        | Some recipe =>
            let output_amount := dict_get (outputs recipe) resource 1 in
            let items_per_cycle := output_amount in
            cycles_per_minute ← float_truediv 60%float (production_time recipe);
            let items_per_minute_per_building :=
              (float_of_int items_per_cycle * cycles_per_minute)%float in
            buildings_needed ← float_truediv quantity_per_minute items_per_minute_per_building;
            children ←
              build_children
                (fun input_resource input_per_minute =>
                   _build_chain_recursive limit self input_resource input_per_minute
                     visited (depth + 1)%Z max_phase allow_alternate allowed_alternates)
                output_amount quantity_per_minute (inputs recipe);
            match children with
            | [] =>
                if negb (in_base resource) then
                  Ok (terminal "NO RECIPE" resource quantity_per_minute depth)
                else
                  Ok (mkNode resource quantity_per_minute (Some recipe)
                        (building_type recipe) buildings_needed depth children)
            | _ =>
                Ok (mkNode resource quantity_per_minute (Some recipe)
                      (building_type recipe) buildings_needed depth children)
            end
        end
  end.

Definition calculate_production_chain (limit : nat) (self : ProductionCalculator)
  (target_resource : string) (target_quantity_per_minute : float) (max_phase : Z)
  (allow_alternate : bool) (allowed_alternates : option (list string))
  : result ProductionNode :=
  _build_chain_recursive limit self target_resource target_quantity_per_minute ∅ 0%Z
    max_phase allow_alternate allowed_alternates.

(** ** Display names *)

Definition is_upper (c : ascii) : bool :=
  let n := nat_of_ascii c in (65 <=? n)%nat && (n <=? 90)%nat.
Definition is_lower (c : ascii) : bool :=
  let n := nat_of_ascii c in (97 <=? n)%nat && (n <=? 122)%nat.
Definition to_upper (c : ascii) : ascii :=
  if is_lower c then ascii_of_nat (nat_of_ascii c - 32) else c.
Definition to_lower (c : ascii) : ascii :=
  if is_upper c then ascii_of_nat (nat_of_ascii c + 32) else c.

(** [s.replace('_', ' ')] *)
Fixpoint replace_underscores (s : string) : string :=
  match s with
  | EmptyString => EmptyString
  | String c s' =>
      String (if Ascii.eqb c "_"%char then " "%char else c) (replace_underscores s')
  end.

(** [s.title()] on ASCII text: a letter is upper-cased after an uncased
    character and lower-cased after a cased one. *)
Fixpoint title_from (previous_is_cased : bool) (s : string) : string :=
  match s with
  | EmptyString => EmptyString
  | String c s' =>
      String (if previous_is_cased then to_lower c else to_upper c)
             (title_from (is_upper c || is_lower c) s')
  end.
Definition title (s : string) : string := title_from false s.

Definition get_display_name (self : ProductionCalculator) (resource : string) : string :=
  default (title (replace_underscores resource)) (display_name_map self !! resource).

(** [s.isascii()] *)
Definition isascii (s : string) : bool :=
  forallb (fun c => (nat_of_ascii c <? 128)%nat) (list_ascii_of_string s).

(** [c.isalpha()] on an ASCII character: the cased characters. *)
Definition is_cased (c : ascii) : bool := is_upper c || is_lower c.

(** ** Aggregation *)

(** The three accumulators of [get_total_requirements]. *)
Record accumulators : Type := mkAcc {
  acc_raw_resources : gmap string float;
  acc_buildings : gmap string float;
  acc_alternate_recipes : gset string
}.

(** [d[k] += x] on a [defaultdict(float)]. *)
Definition add_to (d : gmap string float) (k : string) (x : float) : gmap string float :=
  <[k := (default 0%float (d !! k) + x)%float]> d.

(** The node's own contribution, before its children are visited. *)
Definition visit (self : ProductionCalculator) (n : ProductionNode) (a : accumulators)
  : accumulators :=
  match recipe n with
  | None =>
      if in_base (resource n) then
        mkAcc (add_to (acc_raw_resources a) (get_display_name self (resource n))
                 (quantity_per_minute n))
              (acc_buildings a) (acc_alternate_recipes a)
      else a
  | Some r =>
      mkAcc (acc_raw_resources a)
            (add_to (acc_buildings a) (node_building_type n) (building_count n))
            (if alternate_recipe r then {[display_name r]} ∪ acc_alternate_recipes a
             else acc_alternate_recipes a)
  end.

Fixpoint traverse (self : ProductionCalculator) (n : ProductionNode) (a : accumulators)
  {struct n} : accumulators :=
  fold_left (fun a child => traverse self child a) (children n) (visit self n a).

(** The order of [str]: lexicographic on code points, which on UTF-8 text is
    the lexicographic order of the bytes. *)
Definition string_le (a b : string) : Prop := String.leb a b = true.
#[global] Instance string_le_dec : RelDecision string_le.
Proof. intros a b. unfold string_le. apply _. Defined.

(** [sorted(list(s))] on a set of strings. *)
Definition sorted (s : gset string) : list string := merge_sort string_le (elements s).

Record requirements : Type := mkRequirements {
  raw_resources : gmap string float;
  buildings : gmap string float;
  alternate_recipes : list string
}.

Definition get_total_requirements (self : ProductionCalculator) (node : ProductionNode)
  : requirements :=
  let a := traverse self node (mkAcc ∅ ∅ ∅) in
  mkRequirements (acc_raw_resources a) (acc_buildings a) (sorted (acc_alternate_recipes a)).

(** ** The nodes of a tree and the totals the specification asks for *)

(** The nodes of a tree, parents before children (the order of [traverse]). *)
Fixpoint nodes (n : ProductionNode) {struct n} : list ProductionNode :=
  n :: flat_map nodes (children n).

(** The sum of a sequence of floats, added from the left to 0.0; a key of
    a total that no node contributes to is absent. *)
Definition float_sum (xs : list float) : float := fold_left PrimFloat.add xs 0%float.
Definition float_sum_opt (xs : list float) : option float :=
  match xs with
  | [] => None
  | _ => Some (float_sum xs)
  end.

Definition is_base_terminal (n : ProductionNode) : bool :=
  match recipe n with
  | None => in_base (resource n)
  | Some _ => false
  end.

Definition is_resolved (n : ProductionNode) : bool :=
  match recipe n with
  | None => false
  | Some _ => true
  end.

(** Specification: the rate drawn of the base resource displayed as [name]. *)
Definition raw_total (self : ProductionCalculator) (tree : ProductionNode) (name : string)
  : option float :=
  float_sum_opt
    (map quantity_per_minute
       (List.filter
          (fun n => is_base_terminal n
                    && String.eqb (get_display_name self (resource n)) name)
          (nodes tree))).

(** Specification: the number of buildings of type [b]. *)
Definition building_total (tree : ProductionNode) (b : string) : option float :=
  float_sum_opt
    (map building_count
       (List.filter (fun n => is_resolved n && String.eqb (node_building_type n) b)
          (nodes tree))).

(** Specification: [name] is the display name of an alternate recipe used
    by some node of the tree. *)
Definition uses_alternate (tree : ProductionNode) (name : string) : Prop :=
  ∃ n r, In n (nodes tree) ∧ recipe n = Some r
         ∧ alternate_recipe r = true ∧ display_name r = name.

(** Specification: [t] holds the totals of [tree]: per display name the sum
    of the rates of the terminal base-resource nodes, per building type the
    sum of the building counts of the resolved nodes, and the sorted distinct
    display names of the alternate recipes in use. *)
Definition totals_of (self : ProductionCalculator) (tree : ProductionNode)
  (t : requirements) : Prop :=
  (∀ name, raw_resources t !! name = raw_total self tree name)
  ∧ (∀ b, buildings t !! b = building_total tree b)
  ∧ Sorted string_le (alternate_recipes t)
  ∧ NoDup (alternate_recipes t)
  ∧ (∀ name, In name (alternate_recipes t) ↔ uses_alternate tree name).

(** ** The shape of a node of a chain *)

(** Items per minute and building (line 419). *)
Definition throughput (r : Recipe) (resource : string) : float :=
  (float_of_int (dict_get (outputs r) resource 1) * (60 / production_time r))%float.

(** The children are the inputs other than the placeholder, in order, each
    at the rate [(input_amount / output_amount) * quantity_per_minute]. *)
Definition child_rates (output_amount : Z) (q : float) (ins : list (string * Z))
  (cs : list ProductionNode) : Prop :=
  map (fun c => (resource c, quantity_per_minute c)) cs =
  map (fun i => (fst i, (float_of_int (snd i) / float_of_int output_amount * q)%float))
      (List.filter (fun i => negb (String.eqb (fst i) "NONE")) ins).

(** What [_build_chain_recursive] makes of one node: a terminal with one of
    its three labels, or a resolved node with its building count and the
    rates of its children. *)
Definition chain_local (self : ProductionCalculator) (max_phase : Z) (allow : bool)
  (allowed : option (list string)) (n : ProductionNode) : Prop :=
  match recipe n with
  | None =>
      building_count n = 0%float ∧ children n = []
      ∧ (if in_base (resource n) then node_building_type n = "Miner/Extractor"
         else node_building_type n = "CIRCULAR" ∨ node_building_type n = "NO RECIPE")
  | Some r =>
      in_base (resource n) = false
      ∧ In r (candidates self (resource n) max_phase allow allowed)
      ∧ node_building_type n = building_type r
      ∧ (production_time r =? 0)%float = false
      ∧ (throughput r (resource n) =? 0)%float = false
      ∧ building_count n = (quantity_per_minute n / throughput r (resource n))%float
      ∧ children n ≠ []
      ∧ child_rates (dict_get (outputs r) (resource n) 1) (quantity_per_minute n)
          (inputs r) (children n)
  end.

(** ** Signs and order of binary64 numbers *)




Definition sf_number (x : spec_float) : Prop := x ≠ S754_nan.


(** The place of a float other than NaN in the order of the floats, as a
    triple compared lexicographically. *)
Definition sf_key (x : spec_float) : Z * Z * Z :=
  match x with
  | S754_nan | S754_zero _ => (0, 0, 0)%Z
  | S754_infinity false => (2, 0, 0)%Z
  | S754_infinity true => (-2, 0, 0)%Z
  | S754_finite false m e => (1, e, Z.pos m)%Z
  | S754_finite true m e => (-1, - e, Z.neg m)%Z
  end.

Definition key_lt (a b : Z * Z * Z) : Prop :=
  let '(a1, a2, a3) := a in
  let '(b1, b2, b3) := b in
  (a1 < b1 ∨ (a1 = b1 ∧ (a2 < b2 ∨ (a2 = b2 ∧ a3 < b3))))%Z.

(** ** Validated catalogs *)

(** What the specification asks of the collaborators that load a catalog:
    quantities consumed are not negative, quantities produced and
    production times are positive. *)
Definition valid_recipe (r : Recipe) : Prop :=
  Forall (fun i => (0 ≤ snd i)%Z) (inputs r)
  ∧ Forall (fun o => (0 < snd o)%Z) (outputs r)
  ∧ (0 <? production_time r)%float = true.

Definition valid_catalog (rs : list (string * Recipe)) : Prop :=
  Forall (fun kr => valid_recipe (snd kr)) rs.

(** ** The cost that ranks a candidate *)

(** Lines 332-340 for one candidate: the cost of one unit of [resource]
    through [r], inputs estimated under the caller's allow-list. *)
Definition ranking_cost (limit : nat) (self : ProductionCalculator) (resource : string)
  (max_phase : Z) (allow : bool) (allowed : option (list string)) (r : Recipe)
  : result float :=
  candidate_raw_cost
    (fun i => _get_raw_cost_recursive limit self i max_phase allow ∅ allowed)
    (dict_get (outputs r) resource 1) (inputs r) 0%float.

(** The ranking loop on candidates whose costs are known. *)
Fixpoint ranking (rcs : list (Recipe * float)) (best_recipe : Recipe) (best_raw_cost : float)
  : Recipe :=
  match rcs with
  | [] => best_recipe
  | (r, raw_cost) :: rest =>
      if (raw_cost <? best_raw_cost)%float then ranking rest r raw_cost
      else ranking rest best_recipe best_raw_cost
  end.

(** ** Estimates with the provenance of the sentinel *)

(** [_get_raw_cost_recursive] once more, with a mark next to the estimate:
    the mark is set when the sentinel 999999.0 (a resource on the path, a
    resource without recipe, a recipe without inputs) is the estimate or has
    entered a sum below it.  Forgetting the mark gives back the method
    ([raw_cost_marked_erase]). *)
Fixpoint raw_cost_inputs_marked (cost : string → result (float * bool)) (output_amount : Z)
  (ins : list (string * Z)) (total_cost : float) (valid_inputs : Z) (marked : bool)
  : result (float * Z * bool) :=
  match ins with
  | [] => Ok (total_cost, valid_inputs, marked)
  | (input_resource, input_amount) :: rest =>
      if String.eqb input_resource "NONE" then
        raw_cost_inputs_marked cost output_amount rest total_cost valid_inputs marked
      else
        input_per_output ← int_truediv input_amount output_amount;
        '(input_cost, input_marked) ← cost input_resource;
        raw_cost_inputs_marked cost output_amount rest
          (total_cost + input_per_output * input_cost)%float (valid_inputs + 1)%Z
          (marked || input_marked)
  end.

Fixpoint raw_cost_marked (limit : nat) (self : ProductionCalculator) (resource : string)
  (max_phase : Z) (allow_alternate : bool) (visited : gset string)
  (allowed_alternates : option (list string)) {struct limit} : result (float * bool) :=
  match limit with
  | O => Raise RecursionError
  | S limit =>
      if in_base resource then Ok (1%float, false)
      else if bool_decide (resource ∈ visited) then Ok (999999%float, true)
      else
        let visited := {[resource]} ∪ visited in
        recipe ← get_best_recipe limit self resource max_phase false allow_alternate
                   allowed_alternates;
        match recipe with
        | None => Ok (999999%float, true)
        | Some recipe =>
            let output_amount := dict_get (outputs recipe) resource 1 in
            '(total_cost, valid_inputs, marked) ←
              raw_cost_inputs_marked
                (fun i => raw_cost_marked limit self i max_phase allow_alternate visited
                            allowed_alternates)
                output_amount (inputs recipe) 0%float 0%Z false;
            if (valid_inputs =? 0)%Z then Ok (999999%float, true)
            else Ok (total_cost, marked)
        end
  end.

(** Forgetting the mark. *)
Definition unmark (r : result (float * bool)) : result float :=
  match r with
  | Ok (c, _) => Ok c
  | Raise e => Raise e
  end.

(** A call that ran out of recursion depth. *)
Definition overflowed {A : Type} (r : result A) : Prop := r = Raise RecursionError.

(** [c2] returns what [c1] returns wherever [c1] had depth enough. *)
Definition refines {A : Type} (c1 c2 : string → result A) : Prop :=
  ∀ i, ¬ overflowed (c1 i) → c2 i = c1 i.

(** The selection that the estimates make for [x] (no efficiency
    preference, no allow-list) returns at depth [k]. *)
Definition settled (self : ProductionCalculator) (max_phase : Z) (allow : bool)
  (k : nat) (x : string) : Prop :=
  ¬ overflowed (get_best_recipe k self x max_phase false allow None).

(** ** The resources a catalog produces *)

(** [o in recipe.outputs] *)
Definition produces (r : Recipe) (o : string) : bool :=
  existsb (String.eqb o) (map fst (outputs r)).

(** [get_resource_list]: the resources that some recipe outputs, sorted. *)
Definition get_resource_list (self : ProductionCalculator) : list string :=
  sorted
    (fold_left (fun resources r => resources ∪ list_to_set (map fst (outputs r)))
       (map snd (recipes self)) ∅).

(** ** The order in which selections return *)

(** The selection that the estimates make for [x] returns a result, and
    not an exception, at depth [k]. *)
Definition answered (self : ProductionCalculator) (max_phase : Z) (allow : bool)
  (k : nat) (x : string) : Prop :=
  ∃ res, get_best_recipe k self x max_phase false allow None = Ok res.

(** Whenever the selection for [v] returns, the selection for [i] has
    returned at a smaller depth. *)
Definition above (self : ProductionCalculator) (max_phase : Z) (allow : bool)
  (v i : string) : Prop :=
  ∀ k, answered self max_phase allow k v →
       ∃ k', (k' < k)%nat ∧ answered self max_phase allow k' i.

(** ** The graph view of a tree (web_calculator.py) *)

(** [build_graph_view] and its nested [traverse].  The names of the module
    are those of web_calculator.py; [calculator], a global there, is the
    parameter [self].  The dict [nodes] is only looked up and updated; the
    list [edges] and the dict [edge_map] are read in insertion order.  The
    counters start at the int 0 and receive floats: [0 + x] is computed as
    [0.0 + x]. *)
Module web_calculator.

(** The exceptions of [build_graph_view]: [d[k]] on a dict that lacks the
    key [k], and a division by zero. *)
Inductive exn : Set := KeyError | ZeroDivisionError.

Inductive outcome (A : Type) : Type :=
| Returns (a : A)
| Raises (e : exn).
Arguments Returns {A} a.
Arguments Raises {A} e.

#[global] Instance outcome_ret : MRet outcome := @Returns.
#[global] Instance outcome_bind : MBind outcome := fun A B f m =>
  match m with
  | Returns a => f a
  | Raises e => Raises e
  end.

(** A value of [nodes]: the dict of a production step (keys 'building',
    'recipe', 'output_resource', 'output_rate', 'building_count', 'inputs',
    'outputs') or of a raw resource (keys 'resource', 'rate'). *)
Inductive graph_node : Type :=
| production (building recipe_name output_resource : string)
    (output_rate building_count : float) (inputs outputs : gmap string float)
| raw (resource_name : string) (rate : float).

(** An edge: the keys 'from', 'to', 'resource' and 'rate'. *)
Record edge : Type := mkEdge {
  edge_from : string;
  edge_to : string;
  edge_resource : string;
  edge_rate : float
}.

(** [nodes] and [edges], the state of [traverse] and the value returned. *)
Record graph : Type := mkGraph {
  nodes : gmap string graph_node;
  edges : list edge
}.

(** [if parent_key: edges.append(...)]: [None] and the empty string are
    false. *)
Definition append_edge (key : string) (parent_key : option string) (name : string)
  (rate : float) (edges : list edge) : list edge :=
  match parent_key with
  | Some (String _ _ as parent) => (edges ++ [mkEdge key parent name rate])%list
  | _ => edges
  end.

(** [if key not in nodes: nodes[key] = fresh]. *)
Definition setdefault (nodes : gmap string graph_node) (key : string) (fresh : graph_node)
  : gmap string graph_node :=
  match nodes !! key with
  | None => <[key := fresh]> nodes
  | Some _ => nodes
  end.

(** Lines 62-72: a node without recipe. *)
Definition visit_raw (self : ProductionCalculator) (node : ProductionNode)
  (parent_key : option string) (g : graph) : outcome graph :=
  let key := "raw:" ++ resource node in
  let nodes := setdefault (nodes g) key (raw (get_display_name self (resource node)) 0) in
  match nodes !! key with
  | Some (raw name rate) =>
      Returns
        (mkGraph (<[key := raw name (rate + quantity_per_minute node)]> nodes)
           (append_edge key parent_key (get_display_name self (resource node))
              (quantity_per_minute node) (edges g)))
  | _ => Raises KeyError
  end.

(** Lines 52-55: the loop over the inputs of the recipe, on the dict
    [nodes[key]['inputs']]. *)
Fixpoint add_inputs (self : ProductionCalculator) (output_amount : Z)
  (quantity_per_minute : float) (ins : list (string * Z)) (d : gmap string float)
  : outcome (gmap string float) :=
  match ins with
  | [] => Returns d
  | (input_resource, input_amount) :: rest =>
      if (output_amount =? 0)%Z then Raises ZeroDivisionError
      else
        let input_rate :=
          (float_of_int input_amount / float_of_int output_amount * quantity_per_minute)%float
        in
        let input_display := get_display_name self input_resource in
        add_inputs self output_amount quantity_per_minute rest
          (<[input_display := (default 0 (d !! input_display) + input_rate)%float]> d)
  end.

(** Lines 38-59: the body of the loop over the outputs of the recipe, up to
    the traversal of the children. *)
Definition visit_output (self : ProductionCalculator) (node : ProductionNode) (r : Recipe)
  (parent_key : option string) (output : string * Z) (g : graph) : outcome graph :=
  let '(output_resource, output_amount) := output in
  let key := node_building_type node ++ ":" ++ id r in
  let nodes :=
    setdefault (nodes g) key
      (production (node_building_type node) (display_name r)
         (get_display_name self output_resource) 0 0 ∅ ∅) in
  match nodes !! key with
  | Some (production building recipe_name name output_rate count ins outs) =>
      ins ← add_inputs self output_amount (quantity_per_minute node) (inputs r) ins;
      let output_display := get_display_name self output_resource in
      let outs :=
        <[output_display :=
            (default 0 (outs !! output_display) + quantity_per_minute node)%float]> outs in
      Returns
        (mkGraph
           (<[key := production building recipe_name name
                       (output_rate + quantity_per_minute node)
                       (count + building_count node) ins outs]> nodes)
           (append_edge key parent_key output_display (quantity_per_minute node) (edges g)))
  | _ => Raises KeyError
  end.

(** [for x in l: a = f(a, x)], left at the first exception. *)
Fixpoint for_each {A B : Type} (f : A → B → outcome A) (l : list B) (a : A) : outcome A :=
  match l with
  | [] => Returns a
  | x :: l => a ← f a x; for_each f l a
  end.

(** Lines 35-72.  The recursion follows the tree. *)
Fixpoint traverse (self : ProductionCalculator) (node : ProductionNode)
  (parent_key : option string) (g : graph) {struct node} : outcome graph :=
  match recipe node with
  | Some r =>
      let key := node_building_type node ++ ":" ++ id r in
      for_each
        (fun g output =>
           g ← visit_output self node r parent_key output g;
           for_each (fun g child => traverse self child (Some key) g) (children node) g)
        (outputs r) g
  | None => visit_raw self node parent_key g
  end.

(** Lines 75-79: one step of the loop that merges the edges with the same
    ends; [edge_map] in insertion order. *)
Fixpoint merge_edge (edge_map : list (string * string * edge)) (e : edge)
  : list (string * string * edge) :=
  match edge_map with
  | [] =>
      [((edge_from e, edge_to e),
        mkEdge (edge_from e) (edge_to e) (edge_resource e) (0 + edge_rate e))]
  | (edge_key, merged) :: rest =>
      if decide (edge_key = (edge_from e, edge_to e)) then
        (edge_key,
         mkEdge (edge_from merged) (edge_to merged) (edge_resource merged)
           (edge_rate merged + edge_rate e)) :: rest
      else (edge_key, merged) :: merge_edge rest e
  end.

Definition build_graph_view (self : ProductionCalculator) (root_node : ProductionNode)
  : outcome graph :=
  g ← traverse self root_node None (mkGraph ∅ []);
  Returns (mkGraph (nodes g) (map snd (fold_left merge_edge (edges g) []))).

(** The visits that [traverse] makes, in order: a node without recipe is
    visited once; a node with a recipe is visited once for every output of
    its recipe, and its children are traversed after each of these visits. *)
Inductive visit : Type :=
| raw_visit (node : ProductionNode) (parent_key : option string)
| output_visit (node : ProductionNode) (r : Recipe) (output : string * Z)
    (parent_key : option string).

Fixpoint visits (node : ProductionNode) (parent_key : option string) {struct node}
  : list visit :=
  match recipe node with
  | Some r =>
      let key := node_building_type node ++ ":" ++ id r in
      flat_map
        (fun output =>
           output_visit node r output parent_key
           :: flat_map (fun child => visits child (Some key)) (children node))
        (outputs r)
  | None => [raw_visit node parent_key]
  end.

Definition visited_node (v : visit) : ProductionNode :=
  match v with
  | raw_visit node _ | output_visit node _ _ _ => node
  end.

(** The key of [nodes] that a visit updates. *)
Definition visit_key (v : visit) : string :=
  match v with
  | raw_visit node _ => "raw:" ++ resource node
  | output_visit node r _ _ => node_building_type node ++ ":" ++ id r
  end.

Definition is_raw_visit (v : visit) : bool :=
  match v with
  | raw_visit _ _ => true
  | output_visit _ _ _ _ => false
  end.

(** The visit divides by the amount of the output, once for every input. *)
Definition divides_by_zero (v : visit) : bool :=
  match v with
  | raw_visit _ _ => false
  | output_visit _ r output _ =>
      (snd output =? 0)%Z && negb (bool_decide (inputs r = []))
  end.

(** The edge that a visit appends, if any. *)
Definition visit_edge (self : ProductionCalculator) (v : visit) : list edge :=
  match v with
  | raw_visit node parent_key =>
      append_edge ("raw:" ++ resource node) parent_key
        (get_display_name self (resource node)) (quantity_per_minute node) []
  | output_visit node r output parent_key =>
      append_edge (node_building_type node ++ ":" ++ id r) parent_key
        (get_display_name self (fst output)) (quantity_per_minute node) []
  end.

(** The effect of one visit on [nodes] and [edges]. *)
Definition step (self : ProductionCalculator) (g : graph) (v : visit) : outcome graph :=
  match v with
  | raw_visit node parent_key => visit_raw self node parent_key g
  | output_visit node r output parent_key => visit_output self node r parent_key output g
  end.

Definition visit_rate (v : visit) : float := quantity_per_minute (visited_node v).
Definition visit_count (v : visit) : float := building_count (visited_node v).

Definition is_raw_node (n : graph_node) : bool :=
  match n with
  | raw _ _ => true
  | production _ _ _ _ _ _ _ => false
  end.

Definition edge_ends (e : edge) : string * string := (edge_from e, edge_to e).

(** A visit finds at its key nothing, or a dict of its own kind. *)
Definition compatible (g : graph) (v : visit) : Prop :=
  ∀ n, nodes g !! visit_key v = Some n → is_raw_node n = is_raw_visit v.

(** What a visit makes of the dict at its key. *)
Definition absorbed (self : ProductionCalculator) (cur : option graph_node) (v : visit) (new : option graph_node) : Prop :=
  match v, cur with
  | raw_visit node _, None =>
      new = Some (raw (get_display_name self (resource node)) (0 + quantity_per_minute node))
  | raw_visit node _, Some (raw name rate) =>
      new = Some (raw name (rate + quantity_per_minute node))
  | output_visit node r output _, None =>
      ∃ ins outs,
        new = Some (production (node_building_type node) (display_name r)
                      (get_display_name self (fst output))
                      (0 + quantity_per_minute node) (0 + building_count node) ins outs)
  | output_visit node r output _, Some (production building name out rate count _ _) =>
      ∃ ins outs,
        new = Some (production building name out (rate + quantity_per_minute node)
                      (count + building_count node) ins outs)
  | _, _ => False
  end.

(** The dict at a key after the visits [vs] at that key, from [cur]. *)
Definition tallied (self : ProductionCalculator) (cur : option graph_node) (vs : list visit) (new : option graph_node)
  : Prop :=
  match vs with
  | [] => new = cur
  | v :: _ =>
      match cur with
      | Some (raw name rate) =>
          new = Some (raw name (fold_left PrimFloat.add (map visit_rate vs) rate))
      | Some (production building name out rate count _ _) =>
          ∃ ins outs,
            new = Some (production building name out
                          (fold_left PrimFloat.add (map visit_rate vs) rate)
                          (fold_left PrimFloat.add (map visit_count vs) count) ins outs)
      | None =>
          match v with
          | raw_visit node _ =>
              new = Some (raw (get_display_name self (resource node))
                            (float_sum (map visit_rate vs)))
          | output_visit node r output _ =>
              ∃ ins outs,
                new = Some (production (node_building_type node) (display_name r)
                              (get_display_name self (fst output))
                              (float_sum (map visit_rate vs))
                              (float_sum (map visit_count vs)) ins outs)
          end
      end
  end.

End web_calculator.

(** ** Catalogs used in the examples *)

Definition simple_recipe (name : string) (ins outs : list (string * Z)) (time : float)
  (alt : bool) : Recipe :=
  mkRecipe name name ins outs time "Smelter" "" 5 0%float 1 alt.

Definition catalog (rs : list Recipe) : ProductionCalculator :=
  new_calculator (map (fun r => (id r, r)) rs).

(** The scenario of the specification: one smelting recipe. *)
Definition iron_ingot : Recipe :=
  simple_recipe "iron_ingot" [("ORE", 1%Z)] [("IRON_INGOT", 1%Z)] 2%float false.
Definition iron_catalog : ProductionCalculator := catalog [iron_ingot].

(** The tree of the scenario: thirty ingots a minute. *)
Definition iron_tree : ProductionNode :=
  {| resource := "IRON_INGOT"; quantity_per_minute := 30%float;
     recipe := Some iron_ingot; node_building_type := "Smelter";
     building_count := 1%float; depth := 0%Z;
     children := [terminal "Miner/Extractor" "ORE" 30%float 1%Z] |}.

(** Two recipes that consume each other's output. *)
Definition recipe_a : Recipe := simple_recipe "a" [("B", 1%Z)] [("A", 1%Z)] 2%float false.
Definition recipe_b : Recipe := simple_recipe "b" [("A", 1%Z)] [("B", 1%Z)] 2%float false.
Definition cyclic_catalog : ProductionCalculator := catalog [recipe_a; recipe_b].

(** A catalog that has a recipe for a base resource. *)
Definition ore_from_coal : Recipe :=
  simple_recipe "ore_from_coal" [("COAL", 1%Z)] [("ORE", 1%Z)] 2%float false.
Definition ore_catalog : ProductionCalculator := catalog [ore_from_coal].

(** A recipe that makes a widget from nothing. *)
Definition widget : Recipe := simple_recipe "widget" [] [("WIDGET", 1%Z)] 2%float false.
Definition widget_catalog : ProductionCalculator := catalog [widget].

(** A plate with a default recipe and an alternate one. *)
Definition plate : Recipe :=
  simple_recipe "plate" [("ORE", 3%Z)] [("PLATE", 1%Z)] 2%float false.
Definition alt_plate : Recipe :=
  simple_recipe "alt_plate" [("COAL", 1%Z)] [("PLATE", 1%Z)] 2%float true.
Definition plate_catalog : ProductionCalculator := catalog [plate; alt_plate].

(** A plate made of ingots, and ingots that only an alternate recipe makes. *)
Definition ingot_plate : Recipe :=
  simple_recipe "ingot_plate" [("INGOT", 1%Z)] [("PLATE", 1%Z)] 2%float false.
Definition alt_ingot : Recipe :=
  simple_recipe "alt_ingot" [("ORE", 1%Z)] [("INGOT", 1%Z)] 2%float true.
Definition ingot_catalog : ProductionCalculator := catalog [ingot_plate; alt_ingot].

(** The scenario of the specification: a plate from ore, at five ore a
    plate, and a plate from an intermediate that nothing produces, a million
    plates from one unit of it. *)
Definition ore_plate : Recipe :=
  simple_recipe "ore_plate" [("ORE", 5%Z)] [("PLATE", 1%Z)] 2%float false.
Definition ghost_plate : Recipe :=
  simple_recipe "ghost_plate" [("GHOST", 1%Z)] [("PLATE", 1000000%Z)] 2%float false.
Definition ghost_catalog : ProductionCalculator := catalog [ghost_plate; ore_plate].

(** A validated catalog on which a rate overflows: ten units of an
    intermediate for each product, and an intermediate made in a time so
    short that the cycles per minute are infinite. *)
Definition bulk_product : Recipe :=
  simple_recipe "bulk_product" [("FLASH", 10%Z)] [("BULK", 1%Z)] 2%float false.
Definition flash : Recipe :=
  simple_recipe "flash" [("ORE", 1%Z)] [("FLASH", 1%Z)] 0x1p-1060%float false.
Definition overflow_catalog : ProductionCalculator := catalog [bulk_product; flash].

(** Three ways to a plate: five ore, two coal, or two water a plate. *)
Definition coal_plate : Recipe :=
  simple_recipe "coal_plate" [("COAL", 2%Z)] [("PLATE", 1%Z)] 2%float false.
Definition water_plate : Recipe :=
  simple_recipe "water_plate" [("WATER", 2%Z)] [("PLATE", 1%Z)] 2%float false.
Definition three_plates : ProductionCalculator :=
  catalog [ore_plate; coal_plate; water_plate].

(** A gem that takes ten thousand ore, and a ring made of one gem. *)
Definition gem : Recipe :=
  simple_recipe "gem" [("ORE", 10000%Z)] [("GEM", 1%Z)] 2%float false.
Definition ring : Recipe :=
  simple_recipe "ring" [("GEM", 1%Z)] [("RING", 1%Z)] 2%float false.
Definition gem_catalog : ProductionCalculator := catalog [gem; ring].

(** A thousand sheets from one unit of an intermediate that nothing
    produces, and a foil made of sheets. *)
Definition ghost_sheet : Recipe :=
  simple_recipe "ghost_sheet" [("GHOST", 1%Z)] [("SHEET", 1000%Z)] 2%float false.
Definition foil : Recipe :=
  simple_recipe "foil" [("SHEET", 1%Z)] [("FOIL", 1%Z)] 2%float false.
Definition sheet_catalog : ProductionCalculator := catalog [ghost_sheet; foil].

(** A thousand sheets from one ingot, ingots from an alternate recipe only. *)
Definition ingot_sheet : Recipe :=
  simple_recipe "ingot_sheet" [("INGOT", 1%Z)] [("SHEET", 1000%Z)] 2%float false.
Definition ingot_sheet_catalog : ProductionCalculator := catalog [ingot_sheet; alt_ingot].

(** A recipe whose only input is the placeholder. *)
Definition gadget : Recipe :=
  simple_recipe "gadget" [("NONE", 1%Z)] [("GADGET", 1%Z)] 2%float false.
Definition gadget_catalog : ProductionCalculator := catalog [gadget].

(** A recipe with no production time. *)
Definition instant : Recipe :=
  simple_recipe "instant" [("ORE", 1%Z)] [("SPARK", 1%Z)] 0%float false.
Definition instant_catalog : ProductionCalculator := catalog [instant].

(** The graph view of the iron tree. *)
Definition iron_graph : web_calculator.graph :=
  web_calculator.mkGraph
    {[ "Smelter:iron_ingot" :=
         web_calculator.production "Smelter" "iron_ingot" "Iron Ingot" 30 1
           {[ "Ore" := 30%float ]} {[ "Iron Ingot" := 30%float ]};
       "raw:ORE" := web_calculator.raw "Ore" 30 ]}
    [web_calculator.mkEdge "raw:ORE" "Smelter:iron_ingot" "Ore" 30].

(** A plate that comes with slag, one unit of it or none, and dust made
    from ore by the recipe "ORE" in a building called "raw". *)
Definition twin_plate : Recipe :=
  simple_recipe "twin_plate" [("ORE", 1%Z)] [("PLATE", 1%Z); ("SLAG", 1%Z)] 2%float false.
Definition twin_catalog : ProductionCalculator := catalog [twin_plate].
Definition slag_plate : Recipe :=
  simple_recipe "slag_plate" [("ORE", 1%Z)] [("PLATE", 1%Z); ("SLAG", 0%Z)] 2%float false.
Definition slag_catalog : ProductionCalculator := catalog [slag_plate].
Definition dust : Recipe :=
  mkRecipe "ORE" "dust" [("ORE", 1%Z)] [("DUST", 1%Z)] 2%float "raw" "" 5 0%float 1 false.
Definition dust_catalog : ProductionCalculator := catalog [dust].


(** A plate from a resource that consumes itself and from an intermediate
    that nothing produces, beside the plate from ore. *)
Definition loop_recipe : Recipe :=
  simple_recipe "loop" [("LOOP", 1%Z)] [("LOOP", 1%Z)] 2%float false.
Definition loop_plate : Recipe :=
  simple_recipe "loop_plate" [("LOOP", 1%Z); ("GHOST", 1%Z)] [("PLATE", 1%Z)] 2%float false.
Definition loop_catalog : ProductionCalculator :=
  catalog [loop_plate; ore_plate; loop_recipe].

(** * Properties *)

(** ** Unfolding the recursive methods by one level *)

Lemma get_best_recipe_unfold limit self resource max_phase prefer allow allowed :
  get_best_recipe (S limit) self resource max_phase prefer allow allowed =
  get_best_recipe_body self (_get_raw_cost_recursive limit self)
    resource max_phase prefer allow allowed.
Proof. reflexivity. Qed.

Lemma raw_cost_unfold limit self resource max_phase allow visited allowed :
  _get_raw_cost_recursive (S limit) self resource max_phase allow visited allowed =
  raw_cost_body (get_best_recipe limit self) (_get_raw_cost_recursive limit self)
    resource max_phase allow visited allowed.
Proof. reflexivity. Qed.

Lemma bind_Ok {A B} (f : A → result B) (a : A) : (Ok a ≫= f) = f a.
Proof. reflexivity. Qed.

Lemma bind_inv_Ok {A B} (f : A → result B) (m : result A) (b : B) :
  (m ≫= f) = Ok b → ∃ a, m = Ok a ∧ f a = Ok b.
Proof. destruct m as [a|e]; [eauto | discriminate]. Qed.

(** ** The cyclic catalog: recipe selection never returns *)

Lemma cyclic_candidates_a allow allowed :
  candidates cyclic_catalog "A" 1 allow allowed = [recipe_a].
Proof. destruct allow, allowed; reflexivity. Qed.

Lemma cyclic_candidates_b allow allowed :
  candidates cyclic_catalog "B" 1 allow allowed = [recipe_b].
Proof. destruct allow, allowed; reflexivity. Qed.

Lemma cyclic_selection_overflows limit :
  (∀ prefer allow allowed,
     get_best_recipe limit cyclic_catalog "A" 1 prefer allow allowed = Raise RecursionError
     ∧ get_best_recipe limit cyclic_catalog "B" 1 prefer allow allowed = Raise RecursionError)
  ∧ (∀ allow allowed,
       _get_raw_cost_recursive limit cyclic_catalog "A" 1 allow ∅ allowed
         = Raise RecursionError
       ∧ _get_raw_cost_recursive limit cyclic_catalog "B" 1 allow ∅ allowed
         = Raise RecursionError).
Proof.
  induction limit as [|limit [IHbest IHcost]]; [by repeat split|].
  split.
  - intros prefer allow allowed.
    rewrite !get_best_recipe_unfold. unfold get_best_recipe_body.
    rewrite cyclic_candidates_a, cyclic_candidates_b. cbn [valid_candidates recipe_a recipe_b
      simple_recipe inputs all_inputs_producible].
    change (in_base "B") with false. change (in_base "A") with false. cbv iota.
    destruct (IHcost allow None) as [-> ->]. by split.
  - intros allow allowed.
    rewrite !raw_cost_unfold. unfold raw_cost_body.
    change (in_base "B") with false. change (in_base "A") with false. cbv iota.
    change (bool_decide ("A" ∈ (∅ : gset string))) with false.
    change (bool_decide ("B" ∈ (∅ : gset string))) with false. cbv iota.
    destruct (IHbest false allow allowed) as [-> ->]. by split.
Qed.

(** C1.  On the catalog in which A's recipe consumes B and B's recipe
    consumes A, [calculate_production_chain] on A or on B does not return a
    tree: whatever the recursion depth allowed, it ends in [RecursionError].
    The scan of [get_best_recipe] estimates every input on a fresh visited
    set, so the cycle guard of [_get_raw_cost_recursive] is never reached. *)
Theorem cyclic_catalog_never_resolves :
  ∀ limit q allow allowed,
    calculate_production_chain limit cyclic_catalog "A" q 1 allow allowed
      = Raise RecursionError
    ∧ calculate_production_chain limit cyclic_catalog "B" q 1 allow allowed
      = Raise RecursionError.
Proof.
  intros [|limit] q allow allowed; [by split|].
  unfold calculate_production_chain. cbn [_build_chain_recursive].
  change (in_base "B") with false. change (in_base "A") with false. cbv iota.
  change (bool_decide ("A" ∈ (∅ : gset string))) with false.
  change (bool_decide ("B" ∈ (∅ : gset string))) with false. cbv iota.
  destruct (cyclic_selection_overflows limit) as [Hbest _].
  destruct (Hbest true allow allowed) as [-> ->]. by split.
Qed.

(** ** Base resources *)

(** C8.  For a resource of [BASE_RESOURCES] the chain is the terminal node
    labelled "Miner/Extractor", with no recipe and the requested rate,
    whatever the catalog holds.  One level of recursion is enough, so
    [get_best_recipe], which needs a level of its own, is not called. *)
Theorem base_resource_is_terminal :
  ∀ limit self resource q max_phase allow allowed,
    resource ∈ BASE_RESOURCES →
    calculate_production_chain (S limit) self resource q max_phase allow allowed
    = Ok {| resource := resource; quantity_per_minute := q; recipe := None;
            node_building_type := "Miner/Extractor"; building_count := 0%float;
            depth := 0%Z; children := [] |}.
Proof.
  intros limit self resource q max_phase allow allowed Hbase.
  unfold calculate_production_chain. cbn [_build_chain_recursive].
  unfold in_base. by rewrite bool_decide_eq_true_2.
Qed.

Lemma base_resource_is_terminal_witness :
  "ORE" ∈ BASE_RESOURCES
  ∧ default [] (recipes_by_output ore_catalog !! "ORE") = [ore_from_coal]
  ∧ calculate_production_chain 1 ore_catalog "ORE" 7.5%float 1 true None
    = Ok {| resource := "ORE"; quantity_per_minute := 7.5%float; recipe := None;
            node_building_type := "Miner/Extractor"; building_count := 0%float;
            depth := 0%Z; children := [] |}.
Proof.
  assert (Hbase : "ORE" ∈ BASE_RESOURCES).
  { apply (bool_decide_eq_true_1 ("ORE" ∈ BASE_RESOURCES)). reflexivity. }
  split; [exact Hbase|].
  split; [reflexivity|].
  exact (base_resource_is_terminal 0 ore_catalog "ORE" 7.5%float 1 true None Hbase).
Defined.

(** ** Recipes without usable inputs *)

Lemma build_children_placeholders build output_amount q ins :
  Forall (fun i => fst i = "NONE") ins →
  build_children build output_amount q ins = Ok [].
Proof.
  induction 1 as [|[i a] ins Hi _ IH]; [done|].
  cbn in Hi. subst i. cbn. exact IH.
Qed.

(** C7.  When a recipe is resolved for a non-base resource and every input
    of it is the placeholder "NONE" (or it has no input at all), the node
    returned is the terminal labelled "NO RECIPE", without recipe and with
    building count 0.  The hypotheses on the production time and on the
    throughput say that the two divisions made before the inputs are read
    are defined. *)
Theorem recipe_without_inputs_is_demoted :
  ∀ limit self resource q visited depth max_phase allow allowed r,
    in_base resource = false →
    resource ∉ visited →
    get_best_recipe limit self resource max_phase true allow allowed = Ok (Some r) →
    Forall (fun i => fst i = "NONE") (inputs r) →
    (production_time r =? 0)%float = false →
    (float_of_int (dict_get (outputs r) resource 1) * (60 / production_time r) =? 0)%float
      = false →
    _build_chain_recursive (S limit) self resource q visited depth max_phase allow allowed
    = Ok {| resource := resource; quantity_per_minute := q; recipe := None;
            node_building_type := "NO RECIPE"; building_count := 0%float;
            depth := depth; children := [] |}.
Proof.
  intros limit self resource q visited depth max_phase allow allowed r
    Hbase Hvisited Hbest Hnone Htime Hrate.
  cbn [_build_chain_recursive]. rewrite Hbase, (bool_decide_eq_false_2 _ Hvisited).
  rewrite Hbest, bind_Ok.
  unfold float_truediv. rewrite Htime. cbv iota. rewrite bind_Ok, Hrate. cbv iota.
  by rewrite bind_Ok, build_children_placeholders.
Qed.

Lemma recipe_without_inputs_is_demoted_witness :
  in_base "WIDGET" = false
  ∧ ("WIDGET" ∉ (∅ : gset string))
  ∧ get_best_recipe 1 widget_catalog "WIDGET" 1 true true None = Ok (Some widget)
  ∧ Forall (fun i => fst i = "NONE") (inputs widget)
  ∧ (production_time widget =? 0)%float = false
  ∧ (float_of_int (dict_get (outputs widget) "WIDGET" 1) * (60 / production_time widget)
       =? 0)%float = false
  ∧ _build_chain_recursive 2 widget_catalog "WIDGET" 12%float ∅ 0 1 true None
    = Ok {| resource := "WIDGET"; quantity_per_minute := 12%float; recipe := None;
            node_building_type := "NO RECIPE"; building_count := 0%float;
            depth := 0%Z; children := [] |}.
Proof.
  assert (Hfresh : "WIDGET" ∉ (∅ : gset string)) by apply not_elem_of_empty.
  assert (Hnone : Forall (fun i : string * Z => fst i = "NONE") (inputs widget))
    by constructor.
  do 6 (split; [first [reflexivity | assumption]|]).
  exact (recipe_without_inputs_is_demoted 1 widget_catalog "WIDGET" 12%float ∅ 0 1
           true None widget eq_refl Hfresh eq_refl Hnone eq_refl eq_refl).
Defined.

(** A recipe whose only input is the placeholder does not get that far:
    "NONE" is not a base resource and nothing produces it, so the scan of
    [get_best_recipe] discards the recipe and the node is "NO RECIPE" for
    want of a recipe. *)
Example placeholder_recipe_is_not_selected :
  get_best_recipe 3 gadget_catalog "GADGET" 1 true true None = Ok None
  ∧ calculate_production_chain 4 gadget_catalog "GADGET" 12%float 1 true None
    = Ok (terminal "NO RECIPE" "GADGET" 12%float 0%Z).
Proof. split; reflexivity. Qed.

(** ** The alternate-recipe policy *)

Lemma existsb_eqb_In (x : string) (l : list string) :
  existsb (String.eqb x) l = true ↔ In x l.
Proof.
  rewrite existsb_exists. split.
  - intros (y & Hy & Heq). apply String.eqb_eq in Heq. by subst.
  - intros Hx. exists x. split; [done | apply String.eqb_refl].
Qed.

(** C4, as the code has it.  A recipe of the right phase is a candidate
    exactly when it is not an alternate, or alternates are allowed and its
    identifier is in the allow-list if one is given.  So with
    [allow_alternate] false every alternate is excluded, listed or not; with
    [allow_alternate] true and a list an alternate is excluded iff its
    identifier is not in the list; a non-alternate is never excluded; and
    every alternate that is a candidate is in the list, whatever the flag. *)
Theorem alternate_policy_spec :
  ∀ self resource max_phase allow allowed r,
    In r (candidates self resource max_phase allow allowed) ↔
    In r (phase_candidates self resource max_phase)
    ∧ (alternate_recipe r = true →
       allow = true ∧ ∀ l, allowed = Some l → In (id r) l).
Proof.
  intros self resource max_phase allow allowed r.
  unfold candidates. rewrite filter_In. unfold alternate_policy.
  split; intros [Hin Hpolicy]; (split; [exact Hin|]).
  - intros Halt. rewrite Halt in Hpolicy.
    destruct allow; [|discriminate]. split; [done|].
    intros l ->. cbn in Hpolicy. by apply existsb_eqb_In.
  - destruct (alternate_recipe r); [|by destruct allow, allowed].
    destruct (Hpolicy eq_refl) as [-> Hlist]. cbn.
    destruct allowed as [l|]; [|done]. by apply existsb_eqb_In, Hlist.
Qed.

(** C4, as the claim has it, fails: with [allow_alternate] false an
    alternate recipe is excluded although its identifier is in the list. *)
Lemma listed_alternate_excluded_when_disallowed :
  In alt_plate (phase_candidates plate_catalog "PLATE" 1)
  ∧ alternate_recipe alt_plate = true
  ∧ In (id alt_plate) ["alt_plate"]
  ∧ ¬ In alt_plate (candidates plate_catalog "PLATE" 1 false (Some ["alt_plate"])).
Proof.
  split; [right; left; reflexivity|].
  split; [reflexivity|].
  split; [left; reflexivity|].
  change (candidates plate_catalog "PLATE" 1 false (Some ["alt_plate"])) with [plate].
  intros [Heq|[]]. discriminate Heq.
Qed.

(** ** The reachability scan *)






(** In that catalog the producible recipe is the dearer of the two by the
    measure of the ranking loop: five against a diluted sentinel. *)
Example ghost_plate_costs :
  let cost i := _get_raw_cost_recursive 2 ghost_catalog i 1 true ∅ None in
  candidate_raw_cost cost 1 (inputs ore_plate) 0%float = Ok 5%float
  ∧ ∃ c, candidate_raw_cost cost 1000000 (inputs ghost_plate) 0%float = Ok c
         ∧ (c <? 1)%float = true.
Proof. split; [reflexivity|]. eexists. split; reflexivity. Qed.


Lemma loop_candidates allow allowed :
  candidates loop_catalog "LOOP" 1 allow allowed = [loop_recipe]
  ∧ candidates loop_catalog "PLATE" 1 allow allowed = [loop_plate; ore_plate].
Proof. destruct allow, allowed; split; reflexivity. Qed.

Lemma loop_selection_overflows limit :
  (∀ prefer allow allowed,
     get_best_recipe limit loop_catalog "LOOP" 1 prefer allow allowed = Raise RecursionError)
  ∧ (∀ allow allowed,
       _get_raw_cost_recursive limit loop_catalog "LOOP" 1 allow ∅ allowed
       = Raise RecursionError).
Proof.
  induction limit as [|limit [IHbest IHcost]]; [by split|].
  split.
  - intros prefer allow allowed.
    rewrite get_best_recipe_unfold. unfold get_best_recipe_body.
    rewrite (proj1 (loop_candidates allow allowed)).
    cbn [valid_candidates loop_recipe simple_recipe inputs all_inputs_producible].
    change (in_base "LOOP") with false. cbv iota.
    by rewrite (IHcost allow None).
  - intros allow allowed.
    rewrite raw_cost_unfold. unfold raw_cost_body.
    change (in_base "LOOP") with false. cbv iota.
    change (bool_decide ("LOOP" ∈ (∅ : gset string))) with false. cbv iota.
    by rewrite (IHbest false allow allowed).
Qed.

(** The estimates of the inputs read before the unproducible one have to
    return: when the candidate reads first an input that consumes itself,
    the selection ends in [RecursionError] at every depth, and neither the
    plate from ore nor anything else is returned. *)
Example looping_input_prevents_selection :
  Forall (fun i => in_base (fst i) = true) (inputs ore_plate)
  ∧ inputs loop_plate = ([("LOOP", 1%Z)] ++ ("GHOST", 1%Z) :: [])%list
  ∧ get_best_recipe 1 loop_catalog "GHOST" 1 false true None = Ok None
  ∧ ∀ limit prefer allow allowed,
      candidates loop_catalog "PLATE" 1 allow allowed = [loop_plate; ore_plate]
      ∧ get_best_recipe limit loop_catalog "PLATE" 1 prefer allow allowed
        = Raise RecursionError.
Proof.
  split; [by repeat constructor|]. split; [reflexivity|]. split; [reflexivity|].
  intros limit prefer allow allowed. split; [apply loop_candidates|].
  destruct limit as [|limit]; [done|].
  rewrite get_best_recipe_unfold. unfold get_best_recipe_body.
  rewrite (proj2 (loop_candidates allow allowed)).
  cbn [valid_candidates loop_plate simple_recipe inputs all_inputs_producible].
  change (in_base "LOOP") with false. cbv iota.
  by rewrite (proj2 (loop_selection_overflows limit) allow None).
Qed.

(** ** The allow-list and the reachability scan *)

(** C9.  The scan of [get_best_recipe] estimates an input with no
    allow-list, whatever list the caller gave, and the ranking loop estimates
    it with the caller's list.  In the catalog where ingots come from an
    alternate recipe only, and under the empty allow-list, ingots have no
    qualifying recipe and their estimate with the list is the sentinel, yet
    the plate recipe that consumes them is not discarded: its input is
    estimated at 1 and the chain ends in a "NO RECIPE" child. *)
Theorem scan_ignores_allow_list :
  (∀ limit self resource max_phase prefer allow allowed,
     get_best_recipe (S limit) self resource max_phase prefer allow allowed =
     valid ← valid_candidates
                (fun i => _get_raw_cost_recursive limit self i max_phase allow ∅ None)
                (candidates self resource max_phase allow allowed);
     match valid with
     | [] => Ok None
     | first :: _ =>
         if prefer && (1 <? length valid)%nat then
           best ← select_best
                    (fun i => _get_raw_cost_recursive limit self i max_phase allow ∅ allowed)
                    resource valid first infinity;
           Ok (Some best)
         else Ok (Some first)
     end)
  ∧ candidates ingot_catalog "INGOT" 1 true None = [alt_ingot]
  ∧ alternate_recipe alt_ingot = true
  ∧ ¬ In (id alt_ingot) []
  ∧ get_best_recipe 1 ingot_catalog "INGOT" 1 true true (Some []) = Ok None
  ∧ _get_raw_cost_recursive 2 ingot_catalog "INGOT" 1 true ∅ (Some []) = Ok 999999%float
  ∧ _get_raw_cost_recursive 2 ingot_catalog "INGOT" 1 true ∅ None = Ok 1%float
  ∧ get_best_recipe 3 ingot_catalog "PLATE" 1 true true (Some []) = Ok (Some ingot_plate)
  ∧ calculate_production_chain 4 ingot_catalog "PLATE" 30%float 1 true (Some [])
    = Ok {| resource := "PLATE"; quantity_per_minute := 30%float;
            recipe := Some ingot_plate; node_building_type := "Smelter";
            building_count := 1%float; depth := 0%Z;
            children := [terminal "NO RECIPE" "INGOT" 30%float 1%Z] |}.
Proof.
  split.
  { intros limit self resource max_phase prefer allow allowed.
    rewrite get_best_recipe_unfold. unfold get_best_recipe_body.
    by destruct (candidates self resource max_phase allow allowed). }
  repeat split; try reflexivity. intros [].
Qed.

(** ** Aggregation *)

Lemma ProductionNode_nested_ind (P : ProductionNode → Prop) :
  (∀ res q r label count d cs, Forall P cs → P (mkNode res q r label count d cs)) →
  ∀ n, P n.
Proof.
  intros Hnode. fix IH 1. intros [res q r label count d cs].
  apply Hnode. induction cs as [|c cs IHcs]; constructor; [apply IH | exact IHcs].
Qed.

(** [traverse] visits the nodes in the order of [nodes]. *)
Lemma traverse_nodes self n :
  ∀ a, traverse self n a = fold_left (fun a m => visit self m a) (nodes n) a.
Proof.
  induction n as [res q r label count d cs IH] using ProductionNode_nested_ind.
  intros a. cbn [traverse nodes children fold_left].
  generalize (visit self (mkNode res q r label count d cs) a). clear a.
  induction IH as [|c cs Hc _ IHcs]; intros a; [done|].
  cbn [flat_map fold_left]. by rewrite fold_left_app, Hc, IHcs.
Qed.

Lemma float_sum_from xs x :
  fold_left (fun o y => Some (default 0 o + y)%float) xs (Some x)
  = Some (fold_left PrimFloat.add xs x).
Proof. revert x. induction xs as [|y xs IH]; intros x; [done | apply IH]. Qed.

Lemma float_sum_opt_fold xs :
  fold_left (fun o y => Some (default 0 o + y)%float) xs None = float_sum_opt xs.
Proof. destruct xs as [|y xs]; [done | apply float_sum_from]. Qed.

Lemma add_to_lookup d k x k' :
  add_to d k x !! k' =
  if String.eqb k k' then Some (default 0 (d !! k) + x)%float else d !! k'.
Proof.
  unfold add_to. destruct (String.eqb_spec k k') as [->|Hne].
  - by rewrite lookup_insert_eq.
  - by rewrite lookup_insert_ne.
Qed.

Lemma visit_raw_resources self n a name :
  acc_raw_resources (visit self n a) !! name =
  if is_base_terminal n && String.eqb (get_display_name self (resource n)) name
  then Some (default 0 (acc_raw_resources a !! name) + quantity_per_minute n)%float
  else acc_raw_resources a !! name.
Proof.
  unfold visit, is_base_terminal. destruct (recipe n); [done|].
  destruct (in_base (resource n)); [|done]. cbn [acc_raw_resources andb].
  rewrite add_to_lookup.
  by destruct (String.eqb_spec (get_display_name self (resource n)) name) as [->|].
Qed.

Lemma visit_buildings self n a b :
  acc_buildings (visit self n a) !! b =
  if is_resolved n && String.eqb (node_building_type n) b
  then Some (default 0 (acc_buildings a !! b) + building_count n)%float
  else acc_buildings a !! b.
Proof.
  unfold visit, is_resolved. destruct (recipe n); [|by destruct (in_base _)].
  cbn [acc_buildings andb]. rewrite add_to_lookup.
  by destruct (String.eqb_spec (node_building_type n) b) as [->|].
Qed.

Lemma visited_raw_resources self l name :
  ∀ a, acc_raw_resources (fold_left (fun a m => visit self m a) l a) !! name =
       fold_left (fun o y => Some (default 0 o + y)%float)
         (map quantity_per_minute
            (List.filter
               (fun n => is_base_terminal n
                         && String.eqb (get_display_name self (resource n)) name) l))
         (acc_raw_resources a !! name).
Proof.
  induction l as [|n l IH]; intros a; [done|].
  cbn [fold_left List.filter]. rewrite IH, visit_raw_resources.
  by destruct (is_base_terminal n && _).
Qed.

Lemma visited_buildings self l b :
  ∀ a, acc_buildings (fold_left (fun a m => visit self m a) l a) !! b =
       fold_left (fun o y => Some (default 0 o + y)%float)
         (map building_count
            (List.filter
               (fun n => is_resolved n && String.eqb (node_building_type n) b) l))
         (acc_buildings a !! b).
Proof.
  induction l as [|n l IH]; intros a; [done|].
  cbn [fold_left List.filter]. rewrite IH, visit_buildings.
  by destruct (is_resolved n && _).
Qed.

Lemma visited_alternates self l name :
  ∀ a, name ∈ acc_alternate_recipes (fold_left (fun a m => visit self m a) l a) ↔
       name ∈ acc_alternate_recipes a
       ∨ ∃ n r, In n l ∧ recipe n = Some r
                ∧ alternate_recipe r = true ∧ display_name r = name.
Proof.
  induction l as [|n l IH]; intros a.
  - cbn. split; [by left | intros [H | (n & r & [] & _)]; exact H].
  - cbn [fold_left]. rewrite IH. split.
    + intros [Hacc | (m & r & Hm & Hr)].
      * unfold visit in Hacc. destruct (recipe n) as [r|] eqn:Hr.
        -- cbn in Hacc. destruct (alternate_recipe r) eqn:Halt; [|by left].
           apply elem_of_union in Hacc as [Hnew | Hold]; [|by left].
           apply elem_of_singleton in Hnew. right. exists n, r.
           repeat split; [by left | done..].
        -- left. by destruct (in_base (resource n)).
      * right. exists m, r. split; [by right | exact Hr].
    + intros [Hacc | (m & r & [<- | Hm] & Hr & Halt & Hname)].
      * left. unfold visit. destruct (recipe n) as [r|].
        -- cbn. destruct (alternate_recipe r); [apply elem_of_union; by right | done].
        -- by destruct (in_base (resource n)).
      * left. unfold visit. rewrite Hr. cbn. rewrite Halt.
        apply elem_of_union. left. by apply elem_of_singleton.
      * right. by exists m, r.
Qed.

#[global] Instance string_le_total : Total string_le.
Proof. intros a b. apply String.leb_total. Qed.

Lemma sorted_spec (s : gset string) :
  Sorted string_le (sorted s) ∧ NoDup (sorted s) ∧ ∀ x, In x (sorted s) ↔ x ∈ s.
Proof.
  unfold sorted. split; [apply (Sorted_merge_sort string_le)|].
  pose proof (merge_sort_Permutation string_le (elements s)) as Hperm.
  split.
  - rewrite Hperm. apply NoDup_elements.
  - intros x. rewrite <- list_elem_of_In, Hperm. apply elem_of_elements.
Qed.

(** The totals of any tree, produced by the builder or not. *)
Lemma total_requirements_of_tree self tree :
  totals_of self tree (get_total_requirements self tree).
Proof.
  unfold totals_of, get_total_requirements.
  cbn [raw_resources buildings alternate_recipes].
  rewrite traverse_nodes. repeat split.
  - intros name. rewrite visited_raw_resources. cbn [acc_raw_resources].
    rewrite lookup_empty. apply float_sum_opt_fold.
  - intros b. rewrite visited_buildings. cbn [acc_buildings].
    rewrite lookup_empty. apply float_sum_opt_fold.
  - apply sorted_spec.
  - apply sorted_spec.
  - intros Hin. apply sorted_spec, visited_alternates in Hin as [Hin | Hin]; [|exact Hin].
    cbn in Hin. by apply not_elem_of_empty in Hin.
  - intros Huses. apply sorted_spec, visited_alternates. by right.
Qed.

(** ** What the builder produces *)

Ltac bind_inv H x Hx := apply bind_inv_Ok in H as (x & Hx & H).

Lemma valid_candidates_subset cost cands valid :
  valid_candidates cost cands = Ok valid → ∀ r, In r valid → In r cands.
Proof.
  revert valid. induction cands as [|c cands IH]; intros valid Hvalid r Hr.
  - cbn in Hvalid. by injection Hvalid as <-.
  - cbn in Hvalid. bind_inv Hvalid ok Hok. bind_inv Hvalid rest Hrest.
    injection Hvalid as <-. destruct ok.
    + destruct Hr as [<- | Hr]; [by left | right; by eapply IH].
    + right. by eapply IH.
Qed.

Lemma select_best_member cost resource valid best best_cost r :
  select_best cost resource valid best best_cost = Ok r → r = best ∨ In r valid.
Proof.
  revert best best_cost. induction valid as [|c valid IH]; intros best best_cost Hsel.
  - cbn in Hsel. left. by injection Hsel.
  - cbn in Hsel. bind_inv Hsel raw_cost Hcost.
    destruct (raw_cost <? best_cost)%float; apply IH in Hsel as [-> | Hin]; auto.
    + right. by left.
    + right. by right.
    + right. by right.
Qed.

(** The recipe selected is one of the candidates. *)
Lemma get_best_recipe_candidate limit self resource max_phase prefer allow allowed r :
  get_best_recipe limit self resource max_phase prefer allow allowed = Ok (Some r) →
  In r (candidates self resource max_phase allow allowed).
Proof.
  destruct limit as [|limit]; [discriminate|].
  rewrite get_best_recipe_unfold. unfold get_best_recipe_body.
  destruct (candidates self resource max_phase allow allowed) as [|c cands] eqn:Hcands;
    [discriminate|].
  intros Hbest. bind_inv Hbest valid Hvalid.
  pose proof (valid_candidates_subset _ _ _ Hvalid) as Hsub.
  destruct valid as [|first valid]; [discriminate|].
  destruct (prefer && (1 <? length (first :: valid))%nat).
  - bind_inv Hbest best Hsel. injection Hbest as <-.
    apply select_best_member in Hsel as [-> | Hin]; apply Hsub; [by left | done].
  - injection Hbest as <-. apply Hsub. by left.
Qed.

Lemma build_children_spec (P : ProductionNode → Prop) build output_amount q ins cs :
  (∀ i qi c, build i qi = Ok c →
             resource c = i ∧ quantity_per_minute c = qi ∧ Forall P (nodes c)) →
  build_children build output_amount q ins = Ok cs →
  child_rates output_amount q ins cs ∧ Forall P (flat_map nodes cs).
Proof.
  intros Hbuild. unfold child_rates. revert cs.
  induction ins as [|[i a] ins IH]; intros cs Hcs.
  - cbn in Hcs. injection Hcs as <-. by split.
  - cbn in Hcs. cbn [List.filter fst].
    destruct (String.eqb i "NONE"); [by apply IH|].
    bind_inv Hcs ratio Hratio. bind_inv Hcs c Hc. bind_inv Hcs more Hmore.
    injection Hcs as <-.
    unfold int_truediv in Hratio. destruct (output_amount =? 0)%Z; [discriminate|].
    injection Hratio as <-.
    destruct (Hbuild _ _ _ Hc) as (Hres & Hq & Hnodes).
    destruct (IH _ Hmore) as [Hrates Hrest].
    split.
    + cbn. by rewrite Hres, Hq, Hrates.
    + cbn [flat_map]. by apply Forall_app.
Qed.

(** Every node of a tree that the builder returns has the shape of
    [chain_local]; the root carries the resource and the rate asked for. *)
Lemma build_chain_local self max_phase allow allowed limit :
  ∀ resource0 q visited d tree,
    _build_chain_recursive limit self resource0 q visited d max_phase allow allowed = Ok tree →
    resource tree = resource0 ∧ quantity_per_minute tree = q
    ∧ Forall (chain_local self max_phase allow allowed) (nodes tree).
Proof.
  induction limit as [|limit IH]; intros resource0 q visited d tree Hbuild;
    [discriminate|].
  cbn [_build_chain_recursive] in Hbuild.
  destruct (in_base resource0) eqn:Hbase.
  { injection Hbuild as <-. repeat split. repeat constructor.
    unfold chain_local. cbn. by rewrite Hbase. }
  destruct (bool_decide (resource0 ∈ visited)).
  { injection Hbuild as <-. repeat split. repeat constructor.
    unfold chain_local. cbn. rewrite Hbase. auto. }
  bind_inv Hbuild best Hbest. destruct best as [r|]; cycle 1.
  { injection Hbuild as <-. repeat split. repeat constructor.
    unfold chain_local. cbn. rewrite Hbase. auto. }
  bind_inv Hbuild cycles Hcycles. bind_inv Hbuild count Hcount. bind_inv Hbuild cs Hcs.
  unfold float_truediv in Hcycles, Hcount.
  destruct (production_time r =? 0)%float eqn:Htime; [discriminate|].
  injection Hcycles as <-.
  destruct (float_of_int (dict_get (outputs r) resource0 1) * (60 / production_time r)
            =? 0)%float eqn:Hrate; [discriminate|].
  injection Hcount as <-.
  apply (build_children_spec (chain_local self max_phase allow allowed)) in Hcs
    as [Hrates Hnodes]; [|intros i qi c Hc; by apply IH in Hc].
  destruct cs as [|c cs].
  { cbn in Hbuild. injection Hbuild as <-. repeat split. repeat constructor.
    unfold chain_local. cbn. rewrite Hbase. auto. }
  injection Hbuild as <-. repeat split. cbn [nodes children].
  constructor; [|exact Hnodes].
  unfold chain_local, throughput. cbn.
  repeat split; try done. by eapply get_best_recipe_candidate.
Qed.

(** C6.  For a tree that [calculate_production_chain] returns,
    [get_total_requirements] gives, per display name, the sum of the rates
    of the terminal base-resource nodes; per building type, the sum of the
    building counts of the nodes with a resolved recipe; and the sorted
    distinct display names of the alternate recipes in use.  A terminal
    labelled "CIRCULAR" or "NO RECIPE" leaves every accumulator as it is. *)
Theorem total_requirements_spec :
  ∀ limit self target q max_phase allow allowed tree,
    calculate_production_chain limit self target q max_phase allow allowed = Ok tree →
    totals_of self tree (get_total_requirements self tree)
    ∧ (∀ n, In n (nodes tree) → recipe n = None →
            node_building_type n = "CIRCULAR" ∨ node_building_type n = "NO RECIPE" →
            ∀ a, visit self n a = a).
Proof.
  intros limit self target q max_phase allow allowed tree Hchain.
  split; [apply total_requirements_of_tree|].
  intros n Hn Hnone Hlabel a.
  apply build_chain_local in Hchain as (_ & _ & Hlocal).
  rewrite List.Forall_forall in Hlocal. specialize (Hlocal n Hn).
  unfold chain_local in Hlocal. unfold visit. rewrite Hnone in Hlocal |- *.
  destruct Hlocal as (_ & _ & Hshape).
  destruct (in_base (resource n)); [|done].
  rewrite Hshape in Hlabel. by destruct Hlabel.
Qed.

Lemma total_requirements_spec_witness :
  calculate_production_chain 3 iron_catalog "IRON_INGOT" 30%float 1 true None = Ok iron_tree
  ∧ totals_of iron_catalog iron_tree (get_total_requirements iron_catalog iron_tree)
  ∧ (∀ n, In n (nodes iron_tree) → recipe n = None →
          node_building_type n = "CIRCULAR" ∨ node_building_type n = "NO RECIPE" →
          ∀ a, visit iron_catalog n a = a).
Proof.
  split; [reflexivity|].
  exact (total_requirements_spec 3 iron_catalog "IRON_INGOT" 30%float 1 true None
           iron_tree eq_refl).
Defined.

(** The totals of the scenario. *)
Example iron_totals :
  raw_resources (get_total_requirements iron_catalog iron_tree) !! "Ore" = Some 30%float
  ∧ buildings (get_total_requirements iron_catalog iron_tree) !! "Smelter" = Some 1%float
  ∧ alternate_recipes (get_total_requirements iron_catalog iron_tree) = [].
Proof. repeat split; reflexivity. Qed.

(** ** Signs of products and quotients *)









(** ** The order of the floats *)

Lemma SFltb_key x y :
  sf_number x → sf_number y → SFltb x y = true ↔ key_lt (sf_key x) (sf_key y).
Proof.
  unfold sf_number, SFltb, SFcompare.
  destruct x as [[]|[]| |[] mx ex], y as [[]|[]| |[] my ey]; intros Hx Hy;
    try (by destruct Hx); try (by destruct Hy); cbn;
    try (change (PosDef.Pos.compare_cont Eq mx my) with (mx ?= my)%positive;
         destruct (Z.compare_spec ex ey), (Pos.compare_spec mx my); cbn);
    (split; [first [discriminate | lia | intros _; lia]
            | first [lia | reflexivity | intros _; reflexivity]]).
Qed.

Lemma SFltb_numbers x y : SFltb x y = true → sf_number x ∧ sf_number y.
Proof.
  unfold sf_number, SFltb, SFcompare.
  by destruct x as [[]|[]| |[] mx ex], y as [[]|[]| |[] my ey].
Qed.

Lemma key_lt_trans a b c : key_lt a b → key_lt b c → key_lt a c.
Proof. destruct a as [[??]?], b as [[??]?], c as [[??]?]. cbn. lia. Qed.

Lemma key_lt_between a b c : key_lt a b → key_lt a c ∨ key_lt c b.
Proof. destruct a as [[??]?], b as [[??]?], c as [[??]?]. cbn. lia. Qed.

Lemma is_nan_spec x : is_nan x = false ↔ sf_number (Prim2SF x).
Proof.
  unfold is_nan, sf_number. rewrite FloatAxioms.eqb_spec. unfold SFeqb, SFcompare.
  destruct (Prim2SF x) as [[]|[]| |[] mx ex]; cbn; try done;
    rewrite ?Z.compare_refl, ?Pos.compare_cont_refl; cbn; done.
Qed.

Lemma float_lt_trans a b c :
  (a <? b)%float = true → (b <? c)%float = true → (a <? c)%float = true.
Proof.
  rewrite !FloatAxioms.ltb_spec. intros Hab Hbc.
  destruct (SFltb_numbers _ _ Hab) as [Ha Hb], (SFltb_numbers _ _ Hbc) as [_ Hc].
  rewrite SFltb_key in Hab, Hbc |- * by done. by eapply key_lt_trans.
Qed.

Lemma float_lt_between a b c :
  (a <? b)%float = true → is_nan c = false →
  (a <? c)%float = true ∨ (c <? b)%float = true.
Proof.
  rewrite !FloatAxioms.ltb_spec, is_nan_spec. intros Hab Hc.
  destruct (SFltb_numbers _ _ Hab) as [Ha Hb].
  rewrite !SFltb_key in * by done. by apply key_lt_between.
Qed.

Lemma float_lt_infinity x : (infinity <? x)%float = false.
Proof.
  rewrite FloatAxioms.ltb_spec. change (Prim2SF infinity) with (S754_infinity false).
  unfold SFltb, SFcompare. by destruct (Prim2SF x) as [[]|[]| |[] mx ex].
Qed.

(** ** Rates and building counts are never negative *)










(** ** The recipe index *)







(** ** Building counts *)




(** A building count that is not a number: the rate of the intermediate
    overflows to infinity, and so does the throughput of its recipe. *)
Example overflowing_rate_has_no_building_count :
  valid_catalog (recipes overflow_catalog)
  ∧ ∃ tree child,
      calculate_production_chain 4 overflow_catalog "BULK" 0x1p1023%float 1 true None = Ok tree
      ∧ children tree = [child]
      ∧ recipe child = Some flash
      ∧ quantity_per_minute child = infinity
      ∧ is_nan (building_count child) = true.
Proof.
  split; [repeat constructor; cbn; lia|].
  do 2 eexists. repeat split; reflexivity.
Qed.

(** ** The ranking of the valid candidates *)

Lemma float_lt_irrefl x : (x <? x)%float = false.
Proof.
  destruct (x <? x)%float eqn:Hlt; [|done].
  rewrite FloatAxioms.ltb_spec in Hlt.
  destruct (SFltb_numbers _ _ Hlt) as [Hx _].
  rewrite SFltb_key in Hlt by done.
  destruct (sf_key (Prim2SF x)) as [[??]?]. cbn in Hlt. lia.
Qed.

Lemma float_lt_asym a b : (a <? b)%float = true → (b <? a)%float = false.
Proof.
  intros Hab. destruct (b <? a)%float eqn:Hba; [|done].
  by rewrite <- (float_lt_irrefl a), (float_lt_trans a b a).
Qed.

(** With the costs of the candidates at hand, [select_best] is [ranking]. *)
Lemma select_best_ranking cost resource rcs :
  Forall (fun rc => candidate_raw_cost cost (dict_get (outputs (fst rc)) resource 1)
                      (inputs (fst rc)) 0%float = Ok (snd rc)) rcs →
  ∀ best best_cost,
    select_best cost resource (map fst rcs) best best_cost
    = Ok (ranking rcs best best_cost).
Proof.
  induction 1 as [|[r c] rcs Hc _ IH]; intros best best_cost; [done|].
  cbn in Hc. cbn [map fst select_best ranking]. rewrite Hc, bind_Ok.
  destruct (c <? best_cost)%float; apply IH.
Qed.

(** The loop keeps the current best unless a cost is strictly below it: it
    ends on the first candidate of least cost among those below the bound it
    started from, or on the recipe it started from when there is none. *)
Lemma ranking_spec rcs :
  Forall (fun rc => is_nan (snd rc) = false) rcs →
  ∀ best best_cost,
    (ranking rcs best best_cost = best
     ∧ Forall (fun rc => (snd rc <? best_cost)%float = false) rcs)
    ∨ (∃ i r c,
         rcs !! i = Some (r, c) ∧ ranking rcs best best_cost = r
         ∧ (c <? best_cost)%float = true
         ∧ (∀ j r' c', rcs !! j = Some (r', c') → (c' <? c)%float = false)
         ∧ (∀ j r' c', (j < i)%nat → rcs !! j = Some (r', c') → (c <? c')%float = true)).
Proof.
  induction 1 as [|[r0 c0] rcs Hnan _ IH]; intros best best_cost; [by left|].
  cbn in Hnan. cbn [ranking].
  destruct (c0 <? best_cost)%float eqn:Hlt.
  - right. destruct (IH r0 c0) as [[-> Hrest] | (i & r & c & Hi & -> & Hc & Hmin & Hfirst)].
    + exists 0%nat, r0, c0. repeat split; try done.
      * intros [|j] r' c' Hj; cbn in Hj.
        -- injection Hj as _ <-. apply float_lt_irrefl.
        -- rewrite List.Forall_forall in Hrest.
           apply (Hrest (r', c')). by eapply list_elem_of_In, list_elem_of_lookup_2.
      * intros j r' c' Hj. lia.
    + exists (S i), r, c. repeat split; try done.
      * by eapply float_lt_trans.
      * intros [|j] r' c' Hj; cbn in Hj; [|by eapply Hmin].
        injection Hj as _ <-. by apply float_lt_asym.
      * intros [|j] r' c' Hlt' Hj; cbn in Hj; [by injection Hj as _ <-|].
        eapply Hfirst; [|done]. lia.
  - destruct (IH best best_cost)
      as [[-> Hrest] | (i & r & c & Hi & -> & Hc & Hmin & Hfirst)].
    + left. split; [done|]. by constructor.
    + right. exists (S i), r, c. repeat split; try done.
      * intros [|j] r' c' Hj; cbn in Hj; [|by eapply Hmin].
        injection Hj as _ <-.
        destruct (c0 <? c)%float eqn:Hc0; [|done].
        by rewrite (float_lt_trans c0 c best_cost) in Hlt.
      * intros [|j] r' c' Hlt' Hj; cbn in Hj; [|eapply Hfirst; [|done]; lia].
        injection Hj as _ <-.
        destruct (float_lt_between c best_cost c0 Hc Hnan) as [Hok | Hbad]; [done|].
        by rewrite Hbad in Hlt.
Qed.

(** C5.  Let [valid] be the candidates that pass the reachability scan.
    Without the efficiency preference, or with at most one valid candidate,
    [get_best_recipe] returns the first of them (none when there is none).
    With the preference and more than one, and the ranking costs of the
    candidates being numbers, it returns a candidate whose cost no other
    cost is strictly below, and the first such: every earlier candidate
    costs strictly more.  The cost of a candidate is [ranking_cost]: the sum
    over its inputs of input quantity over output quantity, times the
    recursive estimate for an input that is not a base resource. *)
Theorem get_best_recipe_ranking :
  ∀ limit self resource max_phase prefer allow allowed valid,
    valid_candidates (fun i => _get_raw_cost_recursive limit self i max_phase allow ∅ None)
      (candidates self resource max_phase allow allowed) = Ok valid →
    (prefer = false ∨ (length valid ≤ 1)%nat →
     get_best_recipe (S limit) self resource max_phase prefer allow allowed
     = Ok (head valid))
    ∧ (prefer = true → (1 < length valid)%nat →
       ∀ rcs,
         map fst rcs = valid →
         Forall (fun rc =>
                   ranking_cost limit self resource max_phase allow allowed (fst rc)
                   = Ok (snd rc)
                   ∧ is_nan (snd rc) = false) rcs →
         ∃ i r c,
           rcs !! i = Some (r, c)
           ∧ get_best_recipe (S limit) self resource max_phase prefer allow allowed
             = Ok (Some r)
           ∧ (∀ j r' c', rcs !! j = Some (r', c') → (c' <? c)%float = false)
           ∧ (∀ j r' c', (j < i)%nat → rcs !! j = Some (r', c') →
                         (c <? c')%float = true)).
Proof.
  intros limit self resource max_phase prefer allow allowed valid Hvalid.
  rewrite get_best_recipe_unfold. unfold get_best_recipe_body.
  destruct (candidates self resource max_phase allow allowed) as [|c0 cands] eqn:Hcands.
  { cbn in Hvalid. injection Hvalid as <-. split; [done | cbn; lia]. }
  rewrite Hvalid, bind_Ok. clear Hvalid Hcands. split.
  - intros Hfirst. destruct valid as [|first valid]; [done|].
    destruct Hfirst as [-> | Hlen]; [done|].
    destruct valid; [by rewrite andb_false_r | cbn in Hlen; lia].
  - intros -> Hlen rcs Hfst Hcosts.
    destruct valid as [|first valid]; [cbn in Hlen; lia|].
    destruct (Nat.ltb_spec 1 (length (first :: valid))) as [_|]; [|lia].
    cbn [andb]. rewrite <- Hfst.
    rewrite (select_best_ranking _ resource rcs), bind_Ok; cycle 1.
    { eapply Forall_impl; [exact Hcosts|]. by intros rc [Hcost _]. }
    assert (Hnan : Forall (fun rc => is_nan (snd rc) = false) rcs).
    { eapply Forall_impl; [exact Hcosts|]. by intros rc [_ Hnan]. }
    destruct (ranking_spec rcs Hnan first infinity)
      as [[-> Hnone] | (i & r & c & Hi & -> & _ & Hmin & Hearlier)].
    + destruct rcs as [|[r0 c0'] rcs]; [discriminate|].
      cbn in Hfst. injection Hfst as <- _. exists 0%nat, r0, c0'.
      split; [done|]. split; [done|]. split; [|intros j r' c'; lia].
      intros j r' c' Hj.
      rewrite List.Forall_forall in Hnone.
      destruct (c' <? c0')%float eqn:Hlt; [|done].
      destruct (float_lt_between c' c0' infinity Hlt eq_refl) as [Hbad | Hbad].
      * assert (Hin : In (r', c') ((r0, c0') :: rcs))
          by by eapply list_elem_of_In, list_elem_of_lookup_2.
        apply Hnone in Hin. cbn in Hin. congruence.
      * by rewrite float_lt_infinity in Hbad.
    + by exists i, r, c.
Qed.

(** ** More recursion depth does not change a result *)

Lemma overflowed_dec {A} (r : result A) : {overflowed r} + {¬ overflowed r}.
Proof. unfold overflowed. destruct r as [a|[]]; (by left) || (by right). Qed.

Lemma bind_not_overflowed {A B} (m : result A) (f : A → result B) :
  ¬ overflowed (m ≫= f) → ¬ overflowed m.
Proof. unfold overflowed. by destruct m as [a|[]]. Qed.

Lemma all_inputs_producible_mono c1 c2 ins :
  refines c1 c2 →
  ¬ overflowed (all_inputs_producible c1 ins) →
  all_inputs_producible c2 ins = all_inputs_producible c1 ins.
Proof.
  intros Href. induction ins as [|[i a] ins IH]; [done|]. cbn.
  destruct (in_base i); [exact IH|]. intros Hrun.
  rewrite (Href i) by by eapply bind_not_overflowed.
  destruct (c1 i) as [c|e]; [|done]. cbn in Hrun |- *.
  destruct (9999 <=? c)%float; [done | by apply IH].
Qed.

Lemma valid_candidates_mono c1 c2 cands :
  refines c1 c2 →
  ¬ overflowed (valid_candidates c1 cands) →
  valid_candidates c2 cands = valid_candidates c1 cands.
Proof.
  intros Href. induction cands as [|r cands IH]; [done|]. cbn. intros Hrun.
  rewrite (all_inputs_producible_mono c1 c2) by (done || by eapply bind_not_overflowed).
  destruct (all_inputs_producible c1 (inputs r)) as [ok|e]; [|done]. cbn in Hrun |- *.
  rewrite IH by by eapply bind_not_overflowed. done.
Qed.

Lemma candidate_raw_cost_mono c1 c2 output_amount ins :
  refines c1 c2 →
  ∀ raw_cost,
    ¬ overflowed (candidate_raw_cost c1 output_amount ins raw_cost) →
    candidate_raw_cost c2 output_amount ins raw_cost
    = candidate_raw_cost c1 output_amount ins raw_cost.
Proof.
  intros Href. induction ins as [|[i a] ins IH]; [done|]. cbn. intros raw_cost Hrun.
  destruct (int_truediv a output_amount) as [ratio|e]; [|done]. cbn in Hrun |- *.
  destruct (in_base i); [by apply IH|].
  rewrite (Href i) by by eapply bind_not_overflowed.
  destruct (c1 i) as [c|e]; [|done]. cbn in Hrun |- *. by apply IH.
Qed.

Lemma select_best_mono c1 c2 resource0 valid :
  refines c1 c2 →
  ∀ best best_cost,
    ¬ overflowed (select_best c1 resource0 valid best best_cost) →
    select_best c2 resource0 valid best best_cost
    = select_best c1 resource0 valid best best_cost.
Proof.
  intros Href. induction valid as [|r valid IH]; [done|]. cbn. intros best best_cost Hrun.
  rewrite (candidate_raw_cost_mono c1 c2) by (done || by eapply bind_not_overflowed).
  destruct (candidate_raw_cost c1 _ _ _) as [c|e]; [|done]. cbn in Hrun |- *.
  destruct (c <? best_cost)%float; by apply IH.
Qed.

Lemma raw_cost_inputs_mono c1 c2 output_amount ins :
  refines c1 c2 →
  ∀ total valid_inputs,
    ¬ overflowed (raw_cost_inputs c1 output_amount ins total valid_inputs) →
    raw_cost_inputs c2 output_amount ins total valid_inputs
    = raw_cost_inputs c1 output_amount ins total valid_inputs.
Proof.
  intros Href. induction ins as [|[i a] ins IH]; [done|]. cbn. intros total valid_inputs Hrun.
  destruct (String.eqb i "NONE"); [by apply IH|].
  destruct (int_truediv a output_amount) as [ratio|e]; [|done]. cbn in Hrun |- *.
  rewrite (Href i) by by eapply bind_not_overflowed.
  destruct (c1 i) as [c|e]; [|done]. cbn in Hrun |- *. by apply IH.
Qed.

Lemma get_best_recipe_body_mono self c1 c2 resource0 max_phase prefer allow allowed :
  (∀ mp al V ad, refines (fun i => c1 i mp al V ad) (fun i => c2 i mp al V ad)) →
  ¬ overflowed (get_best_recipe_body self c1 resource0 max_phase prefer allow allowed) →
  get_best_recipe_body self c2 resource0 max_phase prefer allow allowed
  = get_best_recipe_body self c1 resource0 max_phase prefer allow allowed.
Proof.
  intros Href. unfold get_best_recipe_body.
  destruct (candidates self resource0 max_phase allow allowed) as [|c cands]; [done|].
  intros Hrun.
  rewrite (valid_candidates_mono _ _ _ (Href max_phase allow ∅ None))
    by by eapply bind_not_overflowed.
  destruct (valid_candidates _ (c :: cands)) as [valid|e]; [|done]. cbn in Hrun |- *.
  destruct valid as [|first valid]; [done|].
  destruct (prefer && _); [|done].
  rewrite (select_best_mono _ _ _ _ (Href max_phase allow ∅ allowed))
    by by eapply bind_not_overflowed.
  done.
Qed.

Lemma raw_cost_body_mono (b1 b2 : string → Z → bool → bool → option (list string) →
                                   result (option Recipe)) c1 c2
  resource0 max_phase allow visited allowed :
  (∀ res mp pe al ad, ¬ overflowed (b1 res mp pe al ad) →
                      b2 res mp pe al ad = b1 res mp pe al ad) →
  (∀ mp al V ad, refines (fun i => c1 i mp al V ad) (fun i => c2 i mp al V ad)) →
  ¬ overflowed (raw_cost_body b1 c1 resource0 max_phase allow visited allowed) →
  raw_cost_body b2 c2 resource0 max_phase allow visited allowed
  = raw_cost_body b1 c1 resource0 max_phase allow visited allowed.
Proof.
  intros Hbest Hcost. unfold raw_cost_body.
  destruct (in_base resource0); [done|].
  destruct (bool_decide (resource0 ∈ visited)); [done|]. intros Hrun.
  rewrite Hbest by by eapply bind_not_overflowed.
  destruct (b1 resource0 max_phase false allow allowed) as [[r|]|e]; [|done..].
  cbn in Hrun |- *.
  rewrite (raw_cost_inputs_mono _ _ _ _ (Hcost max_phase allow _ allowed))
    by by eapply bind_not_overflowed.
  done.
Qed.

(** One more level of recursion depth leaves a result as it is. *)
Lemma recursion_depth_step self limit :
  (∀ res mp pe al ad,
     ¬ overflowed (get_best_recipe limit self res mp pe al ad) →
     get_best_recipe (S limit) self res mp pe al ad
     = get_best_recipe limit self res mp pe al ad)
  ∧ (∀ res mp al V ad,
       ¬ overflowed (_get_raw_cost_recursive limit self res mp al V ad) →
       _get_raw_cost_recursive (S limit) self res mp al V ad
       = _get_raw_cost_recursive limit self res mp al V ad).
Proof.
  induction limit as [|limit [IHbest IHcost]]; [split; intros; by exfalso|].
  split.
  - intros res mp pe al ad Hrun.
    rewrite (get_best_recipe_unfold (S limit)), (get_best_recipe_unfold limit) in *.
    apply get_best_recipe_body_mono; [|exact Hrun].
    intros mp' al' V ad' i. apply IHcost.
  - intros res mp al V ad Hrun.
    rewrite (raw_cost_unfold (S limit)), (raw_cost_unfold limit) in *.
    apply raw_cost_body_mono; [exact IHbest | | exact Hrun].
    intros mp' al' V' ad' i. apply IHcost.
Qed.

Lemma get_best_recipe_depth self limit limit' res mp pe al ad :
  (limit ≤ limit')%nat →
  ¬ overflowed (get_best_recipe limit self res mp pe al ad) →
  get_best_recipe limit' self res mp pe al ad = get_best_recipe limit self res mp pe al ad.
Proof.
  induction 1 as [|limit' _ IH]; [done|]. intros Hrun.
  rewrite <- (IH Hrun). apply recursion_depth_step. by rewrite (IH Hrun).
Qed.

Lemma raw_cost_depth self limit limit' res mp al V ad :
  (limit ≤ limit')%nat →
  ¬ overflowed (_get_raw_cost_recursive limit self res mp al V ad) →
  _get_raw_cost_recursive limit' self res mp al V ad
  = _get_raw_cost_recursive limit self res mp al V ad.
Proof.
  induction 1 as [|limit' _ IH]; [done|]. intros Hrun.
  rewrite <- (IH Hrun). apply recursion_depth_step. by rewrite (IH Hrun).
Qed.

(** ** The marked estimate *)

Lemma raw_cost_inputs_marked_erase cm c output_amount ins :
  (∀ i, unmark (cm i) = c i) →
  ∀ total valid_inputs marked,
    match raw_cost_inputs_marked cm output_amount ins total valid_inputs marked with
    | Ok (t, v, _) => raw_cost_inputs c output_amount ins total valid_inputs = Ok (t, v)
    | Raise e => raw_cost_inputs c output_amount ins total valid_inputs = Raise e
    end.
Proof.
  intros Herase. induction ins as [|[i a] ins IH]; intros total valid_inputs marked; [done|].
  cbn. destruct (String.eqb i "NONE"); [apply IH|].
  destruct (int_truediv a output_amount) as [ratio|e]; [|done]. cbn.
  rewrite <- (Herase i). destruct (cm i) as [[ci mi]|e]; [|done]. cbn. apply IH.
Qed.

(** Forgetting the mark gives [_get_raw_cost_recursive]. *)
Lemma raw_cost_marked_erase limit self res mp al V ad :
  unmark (raw_cost_marked limit self res mp al V ad)
  = _get_raw_cost_recursive limit self res mp al V ad.
Proof.
  revert res V. induction limit as [|limit IH]; intros res V; [done|].
  rewrite raw_cost_unfold. unfold raw_cost_body. cbn [raw_cost_marked].
  destruct (in_base res); [done|].
  destruct (bool_decide (res ∈ V)); [done|].
  destruct (get_best_recipe limit self res mp false al ad) as [[r|]|e]; [|done..].
  cbn.
  pose proof (raw_cost_inputs_marked_erase
                (fun i => raw_cost_marked limit self i mp al ({[res]} ∪ V) ad)
                (fun i => _get_raw_cost_recursive limit self i mp al ({[res]} ∪ V) ad)
                (dict_get (outputs r) res 1) (inputs r)
                (fun i => IH i _) 0%float 0%Z false) as Hloop.
  destruct (raw_cost_inputs_marked _ _ _ _ _ _) as [[[t v] m]|e]; rewrite Hloop; [|done].
  cbn. by destruct (v =? 0)%Z.
Qed.

Lemma raw_cost_inputs_marked_congr c1 c2 output_amount ins :
  (∀ i a, In (i, a) ins → ¬ overflowed (c1 i) → c2 i = c1 i) →
  ∀ total valid_inputs marked,
    ¬ overflowed (raw_cost_inputs_marked c1 output_amount ins total valid_inputs marked) →
    raw_cost_inputs_marked c2 output_amount ins total valid_inputs marked
    = raw_cost_inputs_marked c1 output_amount ins total valid_inputs marked.
Proof.
  induction ins as [|[i a] ins IH]; intros Href total valid_inputs marked; [done|].
  cbn. assert (Hrest : ∀ i' a', In (i', a') ins → ¬ overflowed (c1 i') → c2 i' = c1 i')
    by (intros i' a' Hin; apply (Href i' a'); by right).
  destruct (String.eqb i "NONE"); [by apply IH|].
  destruct (int_truediv a output_amount) as [ratio|e]; [|done]. cbn. intros Hrun.
  rewrite (Href i a) by (by left || by eapply bind_not_overflowed).
  destruct (c1 i) as [[ci mi]|e]; [|done]. cbn in Hrun |- *. by apply IH.
Qed.

Lemma raw_cost_inputs_unmarked cm output_amount ins :
  (∀ i a ci mi, In (i, a) ins → cm i = Ok (ci, mi) → mi = false) →
  ∀ total valid_inputs marked t v m,
    raw_cost_inputs_marked cm output_amount ins total valid_inputs marked = Ok (t, v, m) →
    m = marked.
Proof.
  induction ins as [|[i a] ins IH]; intros Hclean total valid_inputs marked t v m Hloop.
  - cbn in Hloop. by injection Hloop as _ _ <-.
  - assert (Hrest : ∀ i' a' ci mi, In (i', a') ins → cm i' = Ok (ci, mi) → mi = false)
      by (intros i' a' ci mi Hin; apply (Hclean i' a'); by right).
    cbn in Hloop. destruct (String.eqb i "NONE"); [by eapply IH|].
    bind_inv Hloop ratio Hratio. bind_inv Hloop cost Hcost. destruct cost as [ci mi].
    rewrite (Hclean i a ci mi (or_introl eq_refl) Hcost), orb_false_r in Hloop.
    by eapply IH.
Qed.

Lemma valid_candidates_scan cost cands valid r :
  valid_candidates cost cands = Ok valid → In r valid →
  all_inputs_producible cost (inputs r) = Ok true.
Proof.
  revert valid. induction cands as [|c cands IH]; intros valid Hvalid Hr.
  - cbn in Hvalid. by injection Hvalid as <-.
  - cbn in Hvalid. bind_inv Hvalid ok Hok. bind_inv Hvalid rest Hrest.
    injection Hvalid as <-. destruct ok; [|by eapply IH].
    destruct Hr as [<- | Hr]; [done | by eapply IH].
Qed.

Lemma scan_passed cost ins :
  all_inputs_producible cost ins = Ok true →
  ∀ i a, In (i, a) ins → in_base i = false →
         ∃ c, cost i = Ok c ∧ (9999 <=? c)%float = false.
Proof.
  induction ins as [|[j b] ins IH]; intros Hscan i a Hin Hi; [done|].
  cbn in Hscan. destruct (in_base j) eqn:Hj.
  - destruct Hin as [[= -> ->] | Hin]; [congruence | by eapply IH].
  - bind_inv Hscan c Hc. destruct (9999 <=? c)%float eqn:Hthreshold; [discriminate|].
    destruct Hin as [[= -> ->] | Hin]; [by exists c | by eapply IH].
Qed.

Section estimates.
Context (self : ProductionCalculator) (max_phase : Z) (allow : bool).

Local Abbreviation is_settled := (settled self max_phase allow).

Lemma settled_depth k k' x : (k ≤ k')%nat → is_settled k x → is_settled k' x.
Proof.
  unfold settled. intros Hle Hk. by rewrite (get_best_recipe_depth _ k k').
Qed.

Lemma least_settled k x :
  is_settled k x →
  ∃ m, (m ≤ k)%nat ∧ is_settled m x ∧ ∀ m', (m' < m)%nat → ¬ is_settled m' x.
Proof.
  induction k as [|k IH]; intros Hk.
  - exists 0%nat. split; [done|]. split; [done|]. intros m'. lia.
  - destruct (overflowed_dec (get_best_recipe k self x max_phase false allow None))
      as [Hover | Hrun].
    + exists (S k). split; [done|]. split; [done|]. intros m' Hm' Hsettled.
      by apply (settled_depth m' k x ltac:(lia)) in Hsettled.
    + destruct (IH Hrun) as (m & Hm & Hsettled & Hleast).
      exists m. split; [lia|]. by split.
Qed.

(** When [r] is selected for [x], the scan has estimated every non-base
    input of [r] below the threshold, at a depth at which the selection for
    [x] itself does not return. *)
Lemma selected_inputs k x r :
  get_best_recipe k self x max_phase false allow None = Ok (Some r) →
  ∃ m, (m < k)%nat
       ∧ (∀ m', (m' ≤ m)%nat → ¬ is_settled m' x)
       ∧ ∀ i a, In (i, a) (inputs r) → in_base i = false →
                ∃ c, _get_raw_cost_recursive m self i max_phase allow ∅ None = Ok c
                     ∧ (9999 <=? c)%float = false.
Proof.
  intros Hbest.
  destruct (least_settled k x) as (m & Hm & Hsettled & Hleast);
    [unfold settled; by rewrite Hbest|].
  destruct m as [|m]; [by destruct Hsettled|].
  exists m. split; [lia|]. split; [intros m' Hm'; apply Hleast; lia|].
  rewrite (get_best_recipe_depth _ (S m) k) in Hbest by done.
  rewrite get_best_recipe_unfold in Hbest. unfold get_best_recipe_body in Hbest.
  destruct (candidates self x max_phase allow None) as [|c0 cands]; [discriminate|].
  bind_inv Hbest valid Hvalid. destruct valid as [|first valid]; [discriminate|].
  cbn in Hbest. injection Hbest as ->.
  apply scan_passed. eapply valid_candidates_scan; [exact Hvalid | by left].
Qed.

Lemma estimate_settles m i V c :
  _get_raw_cost_recursive m self i max_phase allow V None = Ok c →
  in_base i = false → ∃ m', m = S m' ∧ (i ∈ V ∨ is_settled m' i).
Proof.
  destruct m as [|m']; [discriminate|]. intros Hcost Hi. exists m'. split; [done|].
  rewrite raw_cost_unfold in Hcost. unfold raw_cost_body in Hcost. rewrite Hi in Hcost.
  destruct (bool_decide (i ∈ V)) eqn:HV; [left; by apply bool_decide_eq_true_1 in HV|].
  right. unfold settled. by eapply bind_not_overflowed; rewrite Hcost.
Qed.

(** The inputs of a selected recipe: a depth at which each of them is
    settled and [x], with everything that was not settled before, is not. *)
Lemma selected_input_depth k x r (V : gset string) i a :
  get_best_recipe k self x max_phase false allow None = Ok (Some r) →
  (∀ v, v ∈ V → ¬ is_settled k v) →
  In (i, a) (inputs r) →
  ∃ k', (in_base i = false → is_settled k' i)
        ∧ (∀ v, v ∈ ({[x]} ∪ V : gset string) → ¬ is_settled k' v)
        ∧ (in_base i = false →
           ∃ c, _get_raw_cost_recursive (S k') self i max_phase allow ∅ None = Ok c
                ∧ (S k' < k)%nat ∧ (9999 <=? c)%float = false).
Proof.
  intros Hbest HV Hin.
  destruct (selected_inputs k x r Hbest) as (m & Hm & Hx & Hinputs).
  destruct (in_base i) eqn:Hi.
  { exists 0%nat. split; [done|]. split; [|done]. intros v _ Hv. by apply Hv. }
  destruct (Hinputs i a Hin Hi) as (c & Hc & Hthreshold).
  destruct (estimate_settles m i ∅ c Hc Hi) as (m' & -> & [Hempty | Hsettled]);
    [by apply not_elem_of_empty in Hempty|].
  exists m'. split; [done|]. split.
  - intros v Hv. apply elem_of_union in Hv as [Hv | Hv].
    + apply elem_of_singleton in Hv as ->. apply Hx. lia.
    + intros Hsettled'. apply (HV v Hv). apply (settled_depth m' k v); [lia | done].
  - intros _. exists c. split; [done|]. split; [lia | done].
Qed.

(** On the path of an estimate, the visited set does not matter: it holds
    resources whose selection is still running, and no selected recipe
    leads back to one of them. *)
Lemma visited_set_irrelevant limit :
  ∀ x (V1 V2 : gset string) k,
    (in_base x = false → is_settled k x) →
    (∀ v, v ∈ V1 → ¬ is_settled k v) →
    (∀ v, v ∈ V2 → ¬ is_settled k v) →
    ¬ overflowed (raw_cost_marked limit self x max_phase allow V1 None) →
    raw_cost_marked limit self x max_phase allow V2 None
    = raw_cost_marked limit self x max_phase allow V1 None.
Proof.
  induction limit as [|limit IH]; intros x V1 V2 k Hx HV1 HV2 Hrun; [by destruct Hrun|].
  cbn [raw_cost_marked] in Hrun |- *.
  destruct (in_base x) eqn:Hbase; [done|]. specialize (Hx eq_refl).
  rewrite (bool_decide_eq_false_2 (x ∈ V1)) in Hrun |- * by (intros Hin; by apply (HV1 x)).
  rewrite (bool_decide_eq_false_2 (x ∈ V2)) by (intros Hin; by apply (HV2 x)).
  destruct (get_best_recipe limit self x max_phase false allow None) as [[r|]|e] eqn:Hbest;
    [|done..].
  cbn in Hrun |- *.
  rewrite (raw_cost_inputs_marked_congr
             (fun i => raw_cost_marked limit self i max_phase allow ({[x]} ∪ V1) None)
             (fun i => raw_cost_marked limit self i max_phase allow ({[x]} ∪ V2) None));
    [done | | by eapply bind_not_overflowed].
  intros i a Hin Hrun_i.
  assert (Hbest_k : get_best_recipe k self x max_phase false allow None = Ok (Some r)).
  { destruct (Nat.le_ge_cases limit k) as [Hle | Hge].
    - rewrite (get_best_recipe_depth _ limit k) by (done || by rewrite Hbest). done.
    - rewrite <- (get_best_recipe_depth _ k limit) by done. done. }
  assert (HV : ∀ v, v ∈ V1 ∪ V2 → ¬ is_settled k v).
  { intros v Hv. apply elem_of_union in Hv. destruct Hv; [by apply HV1 | by apply HV2]. }
  destruct (selected_input_depth k x r (V1 ∪ V2) i a Hbest_k HV Hin)
    as (k' & Hi & Hvisited & _).
  apply (IH i _ _ k'); [done | | | done]; intros v Hv; apply Hvisited;
    apply elem_of_union in Hv as [Hself | Hrest]; apply elem_of_union;
    (by left) || (right; apply elem_of_union; by (left + right)).
Qed.

(** An estimate made by the reachability scan (empty visited set, no
    allow-list) that the sentinel has entered is the sentinel itself. *)
Lemma marked_estimate_is_sentinel limit :
  ∀ x c,
    raw_cost_marked limit self x max_phase allow ∅ None = Ok (c, true) →
    c = 999999%float.
Proof.
  induction limit as [|limit IH]; intros x c Hcost; [discriminate|].
  cbn [raw_cost_marked] in Hcost.
  destruct (in_base x) eqn:Hbase; [discriminate|].
  rewrite (bool_decide_eq_false_2 _ (not_elem_of_empty (C:=gset string) x)) in Hcost.
  destruct (get_best_recipe limit self x max_phase false allow None) as [[r|]|e] eqn:Hbest;
    [|by injection Hcost|discriminate].
  cbn in Hcost. bind_inv Hcost loop Hloop. destruct loop as [[total count] mark].
  destruct (count =? 0)%Z; [by injection Hcost|]. injection Hcost as -> ->.
  apply raw_cost_inputs_unmarked in Hloop; [discriminate|].
  intros i a ci mi Hin Hci.
  destruct mi; [exfalso|done].
  destruct (selected_input_depth limit x r ∅ i a Hbest) as (k' & Hi & Hvisited & Hscan);
    [intros v Hv; by apply not_elem_of_empty in Hv | done |].
  destruct (in_base i) eqn:Hbase_i.
  { destruct limit; [discriminate|]. cbn [raw_cost_marked] in Hci.
    rewrite Hbase_i in Hci. discriminate. }
  destruct (Hscan eq_refl) as (c' & Hc' & Hdepth & Hthreshold).
  assert (Hfresh : raw_cost_marked limit self i max_phase allow ∅ None = Ok (ci, true)).
  { rewrite <- Hci. apply (visited_set_irrelevant limit i _ _ k').
    - intros _. by apply Hi.
    - exact Hvisited.
    - intros v Hv. by apply not_elem_of_empty in Hv.
    - unfold overflowed. by rewrite Hci. }
  pose proof (raw_cost_marked_erase limit self i max_phase allow ∅ None) as Herase.
  rewrite Hfresh in Herase. apply IH in Hfresh as ->. cbn in Herase.
  rewrite (raw_cost_depth _ (S k') limit) in Herase
    by (lia || (unfold overflowed; by rewrite Hc')).
  rewrite Hc' in Herase. injection Herase as <-. discriminate Hthreshold.
Qed.
End estimates.

(** ** The threshold of the scan and the sentinel of the estimates *)

Lemma scan_criterion cost ins :
  (∀ i a, In (i, a) ins → in_base i = false → ∃ c, cost i = Ok c) →
  ∃ b, all_inputs_producible cost ins = Ok b
       ∧ (b = false ↔
          ∃ i a c, In (i, a) ins ∧ in_base i = false
                   ∧ cost i = Ok c ∧ (9999 <=? c)%float = true).
Proof.
  induction ins as [|[j b0] ins IH]; intros Htotal.
  - exists true. split; [done|]. split; [done | by intros (i & a & c & [] & _)].
  - destruct IH as (b & Hscan & Hb); [intros i a Hin; apply (Htotal i a); by right|].
    cbn. destruct (in_base j) eqn:Hj.
    + exists b. split; [done|]. rewrite Hb. split.
      * intros (i & a & c & Hin & Hrest). exists i, a, c. split; [by right | done].
      * intros (i & a & c & Hin & Hi & Hrest). destruct Hin as [Heq | Hin].
        -- injection Heq as -> ->. congruence.
        -- by exists i, a, c.
    + destruct (Htotal j b0 (or_introl eq_refl) Hj) as [c Hc]. rewrite Hc, bind_Ok.
      destruct (9999 <=? c)%float eqn:Hthreshold.
      * exists false. split; [done|]. split; [|done]. intros _.
        exists j, b0, c. split; [by left | done].
      * exists b. split; [done|]. rewrite Hb. split.
        -- intros (i & a & c' & Hin & Hrest). exists i, a, c'. split; [by right | done].
        -- intros (i & a & c' & Hin & Hi & Hc' & Hthreshold'). destruct Hin as [Heq | Hin].
           ++ injection Heq as -> ->. congruence.
           ++ by exists i, a, c'.
Qed.

Lemma valid_candidates_spec cost cands valid :
  valid_candidates cost cands = Ok valid →
  ∀ r, In r valid ↔ In r cands ∧ all_inputs_producible cost (inputs r) = Ok true.
Proof.
  intros Hvalid r. split.
  - intros Hr. split; [by eapply valid_candidates_subset | by eapply valid_candidates_scan].
  - revert valid Hvalid. induction cands as [|c cands IH]; intros valid Hvalid [Hin Hscan];
      [done|].
    cbn in Hvalid. bind_inv Hvalid ok Hok. bind_inv Hvalid rest Hrest.
    injection Hvalid as <-. destruct Hin as [-> | Hin].
    + rewrite Hscan in Hok. injection Hok as <-. by left.
    + destruct ok; [right|]; by apply IH.
Qed.

Lemma raw_cost_inputs_placeholders cost output_amount ins total valid_inputs :
  Forall (fun i => fst i = "NONE") ins →
  raw_cost_inputs cost output_amount ins total valid_inputs = Ok (total, valid_inputs).
Proof.
  induction 1 as [|[i a] ins Hi _ IH]; [done|]. cbn in Hi. subst i. cbn. exact IH.
Qed.

Lemma raw_cost_on_path limit self x max_phase allow (V : gset string) allowed :
  in_base x = false → x ∈ V →
  _get_raw_cost_recursive (S limit) self x max_phase allow V allowed = Ok 999999%float.
Proof.
  intros Hx HV. rewrite raw_cost_unfold. unfold raw_cost_body.
  by rewrite Hx, (bool_decide_eq_true_2 _ HV).
Qed.

Lemma raw_cost_without_recipe limit self x max_phase allow (V : gset string) allowed :
  in_base x = false → x ∉ V →
  get_best_recipe limit self x max_phase false allow allowed = Ok None →
  _get_raw_cost_recursive (S limit) self x max_phase allow V allowed = Ok 999999%float.
Proof.
  intros Hx HV Hbest. rewrite raw_cost_unfold. unfold raw_cost_body.
  by rewrite Hx, (bool_decide_eq_false_2 _ HV), Hbest.
Qed.

Lemma raw_cost_without_inputs limit self x max_phase allow (V : gset string) allowed r :
  in_base x = false → x ∉ V →
  get_best_recipe limit self x max_phase false allow allowed = Ok (Some r) →
  Forall (fun i => fst i = "NONE") (inputs r) →
  _get_raw_cost_recursive (S limit) self x max_phase allow V allowed = Ok 999999%float.
Proof.
  intros Hx HV Hbest Hnone. rewrite raw_cost_unfold. unfold raw_cost_body.
  rewrite Hx, (bool_decide_eq_false_2 _ HV), Hbest, bind_Ok.
  by rewrite raw_cost_inputs_placeholders.
Qed.

(** C10, as the code has it.  A candidate is kept exactly when the scan of
    its inputs returns true, and the scan returns false exactly when a
    non-base input is estimated at 9999.0 or more (the estimates returning).
    The estimate of a resource on the path, without qualifying recipe, or
    whose recipe has no input but the placeholder is 999999.0.  In the gem
    catalog the gem is produced from ore at an estimate of 10000, and the
    ring that consumes it is discarded for it.  But no estimate of the scan
    is a diluted sentinel: the marked estimate erases to the method, and an
    estimate of the scan that the sentinel has entered is 999999.0, in every
    catalog; the sheet whose input nothing produces is estimated at
    999999.0, not at a thousandth of it, and the foil made of it is
    discarded.  A diluted sentinel is met under an allow-list only, in the
    estimates of the ranking loop. *)
Theorem reachability_threshold_spec :
  (∀ cost cands valid,
     valid_candidates cost cands = Ok valid →
     ∀ r, In r valid ↔ In r cands ∧ all_inputs_producible cost (inputs r) = Ok true)
  ∧ (∀ cost ins,
       (∀ i a, In (i, a) ins → in_base i = false → ∃ c, cost i = Ok c) →
       ∃ b, all_inputs_producible cost ins = Ok b
            ∧ (b = false ↔
               ∃ i a c, In (i, a) ins ∧ in_base i = false
                        ∧ cost i = Ok c ∧ (9999 <=? c)%float = true))
  ∧ (∀ limit self x max_phase allow (V : gset string) allowed,
       in_base x = false → x ∈ V →
       _get_raw_cost_recursive (S limit) self x max_phase allow V allowed
       = Ok 999999%float)
  ∧ (∀ limit self x max_phase allow (V : gset string) allowed,
       in_base x = false → x ∉ V →
       get_best_recipe limit self x max_phase false allow allowed = Ok None →
       _get_raw_cost_recursive (S limit) self x max_phase allow V allowed
       = Ok 999999%float)
  ∧ (∀ limit self x max_phase allow (V : gset string) allowed r,
       in_base x = false → x ∉ V →
       get_best_recipe limit self x max_phase false allow allowed = Ok (Some r) →
       Forall (fun i => fst i = "NONE") (inputs r) →
       _get_raw_cost_recursive (S limit) self x max_phase allow V allowed
       = Ok 999999%float)
  ∧ (get_best_recipe 1 gem_catalog "GEM" 1 true true None = Ok (Some gem)
     ∧ calculate_production_chain 2 gem_catalog "GEM" 1%float 1 true None
       = Ok {| resource := "GEM"; quantity_per_minute := 1%float; recipe := Some gem;
               node_building_type := "Smelter"; building_count := (1 / 30)%float;
               depth := 0%Z;
               children := [terminal "Miner/Extractor" "ORE" 10000%float 1%Z] |}
     ∧ _get_raw_cost_recursive 2 gem_catalog "GEM" 1 true ∅ None = Ok 10000%float
     ∧ (9999 <=? 10000)%float = true
     ∧ get_best_recipe 3 gem_catalog "RING" 1 true true None = Ok None)
  ∧ (∀ limit self x max_phase allow V allowed,
       unmark (raw_cost_marked limit self x max_phase allow V allowed)
       = _get_raw_cost_recursive limit self x max_phase allow V allowed)
  ∧ (∀ limit self x max_phase allow c,
       raw_cost_marked limit self x max_phase allow ∅ None = Ok (c, true) →
       c = 999999%float)
  ∧ (raw_cost_marked 4 sheet_catalog "SHEET" 1 true ∅ None = Ok (999999%float, true)
     ∧ get_best_recipe 5 sheet_catalog "FOIL" 1 true true None = Ok None)
  ∧ (∃ c, raw_cost_marked 4 ingot_sheet_catalog "SHEET" 1 true ∅ (Some []) = Ok (c, true)
          ∧ (c <? 9999)%float = true).
Proof.
  split; [exact valid_candidates_spec|].
  split; [exact scan_criterion|].
  split; [exact raw_cost_on_path|].
  split; [exact raw_cost_without_recipe|].
  split; [exact raw_cost_without_inputs|].
  split; [repeat split; reflexivity|].
  split; [exact raw_cost_marked_erase|].
  split; [intros limit self x max_phase allow c; apply marked_estimate_is_sentinel|].
  split; [split; reflexivity|].
  eexists. split; reflexivity.
Qed.

(** C10, as the claim has it, fails in its last part: there is no catalog
    in which an estimate of the scan is a diluted sentinel that passes the
    threshold. *)
Lemma no_diluted_sentinel_passes_the_scan :
  ¬ ∃ limit self x max_phase allow c,
      raw_cost_marked limit self x max_phase allow ∅ None = Ok (c, true)
      ∧ (9999 <=? c)%float = false.
Proof.
  intros (limit & self & x & max_phase & allow & c & Hcost & Hthreshold).
  apply marked_estimate_is_sentinel in Hcost as ->. discriminate Hthreshold.
Qed.

(** ** The ranking on three recipes *)

Lemma get_best_recipe_ranking_witness :
  valid_candidates (fun i => _get_raw_cost_recursive 1 three_plates i 1 true ∅ None)
    (candidates three_plates "PLATE" 1 true None)
  = Ok [ore_plate; coal_plate; water_plate]
  ∧ (1 < length [ore_plate; coal_plate; water_plate])%nat
  ∧ map fst [(ore_plate, 5%float); (coal_plate, 2%float); (water_plate, 2%float)]
    = [ore_plate; coal_plate; water_plate]
  ∧ Forall (fun rc => ranking_cost 1 three_plates "PLATE" 1 true None (fst rc)
                      = Ok (snd rc)
                      ∧ is_nan (snd rc) = false)
      [(ore_plate, 5%float); (coal_plate, 2%float); (water_plate, 2%float)]
  ∧ ∃ i r c,
      [(ore_plate, 5%float); (coal_plate, 2%float); (water_plate, 2%float)] !! i
      = Some (r, c)
      ∧ get_best_recipe 2 three_plates "PLATE" 1 true true None = Ok (Some r)
      ∧ (∀ j r' c',
           [(ore_plate, 5%float); (coal_plate, 2%float); (water_plate, 2%float)] !! j
           = Some (r', c') → (c' <? c)%float = false)
      ∧ (∀ j r' c', (j < i)%nat →
           [(ore_plate, 5%float); (coal_plate, 2%float); (water_plate, 2%float)] !! j
           = Some (r', c') → (c <? c')%float = true).
Proof.
  assert (Hlen : (1 < length [ore_plate; coal_plate; water_plate])%nat) by (cbn; lia).
  assert (Hcosts :
    Forall (fun rc => ranking_cost 1 three_plates "PLATE" 1 true None (fst rc)
                      = Ok (snd rc)
                      ∧ is_nan (snd rc) = false)
      [(ore_plate, 5%float); (coal_plate, 2%float); (water_plate, 2%float)]).
  { repeat constructor. }
  do 4 (split; [first [reflexivity | assumption]|]).
  exact (proj2 (get_best_recipe_ranking 1 three_plates "PLATE" 1 true true None
                  [ore_plate; coal_plate; water_plate] eq_refl)
           eq_refl Hlen
           [(ore_plate, 5%float); (coal_plate, 2%float); (water_plate, 2%float)]
           eq_refl Hcosts).
Defined.

(** Of the two recipes at the least cost, the first in catalog order wins. *)
Example three_plates_choice :
  get_best_recipe 2 three_plates "PLATE" 1 true true None = Ok (Some coal_plate)
  ∧ get_best_recipe 2 three_plates "PLATE" 1 false true None = Ok (Some ore_plate).
Proof. split; reflexivity. Qed.

(** * Further properties of the engine *)

(** ** The recipe index *)

Lemma produces_In r o : produces r o = true ↔ In o (map fst (outputs r)).
Proof. apply existsb_eqb_In. Qed.

Lemma index_outputs_lookup r os :
  NoDup os →
  ∀ idx o,
    default [] (fold_left (fun idx o => index_append idx o r) os idx !! o) =
    (default [] (idx !! o) ++ (if existsb (String.eqb o) os then [r] else []))%list.
Proof.
  induction 1 as [|o0 os Hfresh _ IH]; intros idx o.
  - cbn. by rewrite app_nil_r.
  - cbn [fold_left existsb]. rewrite IH. unfold index_append.
    destruct (String.eqb_spec o o0) as [->|Hne].
    + rewrite lookup_insert_eq. cbn.
      destruct (existsb (String.eqb o0) os) eqn:Hdup; [|by rewrite app_nil_r].
      apply existsb_eqb_In in Hdup. by apply list_elem_of_In in Hdup.
    + rewrite lookup_insert_ne by done. done.
Qed.

(** X1.  The index built by [ProductionCalculator(recipes)] holds, for every
    resource, the recipes whose outputs contain it, in catalog order (a
    resource that no recipe outputs has no entry, which [.get(resource, [])]
    reads as the empty list).  The keys of an [outputs] dict are distinct. *)
Theorem index_recipes_spec :
  ∀ rs o,
    Forall (fun kr => NoDup (map fst (outputs (snd kr)))) rs →
    default [] (recipes_by_output (new_calculator rs) !! o)
    = List.filter (fun r => produces r o) (map snd rs).
Proof.
  intros rs o Hkeys. cbn [new_calculator recipes_by_output]. unfold _index_recipes.
  assert (Hfold : ∀ l idx,
    Forall (fun r => NoDup (map fst (outputs r))) l →
    default []
      (fold_left
         (fun idx r => fold_left (fun idx o => index_append idx o r)
                         (map fst (outputs r)) idx) l idx !! o)
    = (default [] (idx !! o) ++ List.filter (fun r => produces r o) l)%list).
  { induction l as [|r l IH]; intros idx Hl.
    - cbn. by rewrite app_nil_r.
    - apply Forall_cons in Hl as [Hr Hl]. cbn [fold_left List.filter].
      rewrite (IH _ Hl), (index_outputs_lookup r _ Hr), <- app_assoc.
      unfold produces. by destruct (existsb _ _). }
  rewrite Hfold.
  - by rewrite lookup_empty.
  - rewrite List.Forall_forall in Hkeys |- *. intros r Hr.
    apply in_map_iff in Hr as (kr & <- & Hkr). by apply Hkeys.
Qed.

Lemma index_recipes_spec_witness :
  Forall (fun kr => NoDup (map fst (outputs (snd kr)))) (recipes three_plates)
  ∧ default [] (recipes_by_output (new_calculator (recipes three_plates)) !! "PLATE")
    = List.filter (fun r => produces r "PLATE") (map snd (recipes three_plates)).
Proof.
  assert (Hkeys : Forall (fun kr : string * Recipe => NoDup (map fst (outputs (snd kr))))
                    (recipes three_plates)).
  { repeat constructor; cbn; by intros Hin%list_elem_of_In. }
  split; [exact Hkeys|].
  exact (index_recipes_spec (recipes three_plates) "PLATE" Hkeys).
Defined.

(** Membership in the index, with or without repeated keys. *)
Lemma index_member rs o r :
  In r (default [] (_index_recipes rs !! o)) ↔
  In r (map snd rs) ∧ In o (map fst (outputs r)).
Proof.
  unfold _index_recipes.
  assert (Hinner : ∀ r0 os idx,
    In r (default [] (fold_left (fun idx o => index_append idx o r0) os idx !! o)) ↔
    In r (default [] (idx !! o)) ∨ (r = r0 ∧ In o os)).
  { intros r0. induction os as [|o0 os IH]; intros idx.
    - cbn. intuition (subst; auto; congruence).
    - cbn [fold_left]. rewrite IH. unfold index_append.
      destruct (String.eqb_spec o0 o) as [->|Hne].
      + rewrite lookup_insert_eq. cbn. rewrite in_app_iff. cbn. intuition (subst; auto; congruence).
      + rewrite lookup_insert_ne by done. cbn. intuition (subst; auto; congruence). }
  assert (Houter : ∀ l idx,
    In r (default []
            (fold_left
               (fun idx r => fold_left (fun idx o => index_append idx o r)
                               (map fst (outputs r)) idx) l idx !! o)) ↔
    In r (default [] (idx !! o)) ∨ (In r l ∧ In o (map fst (outputs r)))).
  { induction l as [|r0 l IH]; intros idx.
    - cbn. intuition (subst; auto; congruence).
    - cbn [fold_left]. rewrite IH, Hinner. cbn. intuition (subst; auto; congruence). }
  rewrite Houter, lookup_empty. cbn. intuition (subst; auto; congruence).
Qed.

(** ** The list of resources *)

Lemma resources_fold (o : string) (l : list Recipe) :
  ∀ s : gset string,
    o ∈ fold_left (fun resources r => resources ∪ list_to_set (map fst (outputs r))) l s ↔
    o ∈ s ∨ ∃ r, In r l ∧ In o (map fst (outputs r)).
Proof.
  induction l as [|r0 l IH]; intros s.
  - cbn. split; [by left | by intros [? | (r & [] & _)]].
  - cbn [fold_left]. rewrite IH, elem_of_union, elem_of_list_to_set, list_elem_of_In.
    split.
    + intros [[Hs | Hr0] | (r & Hr & Ho)]; [by left | right..].
      * exists r0. split; [by left | done].
      * exists r. split; [by right | done].
    + intros [Hs | (r & [<- | Hr] & Ho)]; [by left; left | by left; right |].
      right. by exists r.
Qed.

(** X2.  [get_resource_list] returns a sorted list without repetition of
    exactly the resources that some recipe of the catalog outputs; on a
    calculator built from the catalog these are the resources for which the
    index holds a recipe. *)
Theorem get_resource_list_spec :
  ∀ self,
    Sorted string_le (get_resource_list self)
    ∧ NoDup (get_resource_list self)
    ∧ (∀ o, In o (get_resource_list self) ↔
            ∃ r, In r (map snd (recipes self)) ∧ In o (map fst (outputs r)))
    ∧ (∀ rs o, In o (get_resource_list (new_calculator rs)) ↔
               default [] (recipes_by_output (new_calculator rs) !! o) ≠ []).
Proof.
  intros self. unfold get_resource_list.
  split; [apply sorted_spec|]. split; [apply sorted_spec|].
  assert (Hmember : ∀ self' o,
    In o (sorted (fold_left
                    (fun resources r => resources ∪ list_to_set (map fst (outputs r)))
                    (map snd (recipes self')) ∅)) ↔
    ∃ r, In r (map snd (recipes self')) ∧ In o (map fst (outputs r))).
  { intros self' o. rewrite (proj2 (proj2 (sorted_spec _))), resources_fold.
    split; [intros [Hempty | Hr]; [by apply not_elem_of_empty in Hempty | done]
           | by right]. }
  split; [apply Hmember|].
  intros rs o. rewrite Hmember. cbn [new_calculator recipes recipes_by_output]. split.
  - intros (r & Hr & Ho) Hnone.
    assert (Hin : In r (default [] (_index_recipes rs !! o))) by by apply index_member.
    by rewrite Hnone in Hin.
  - destruct (default [] (_index_recipes rs !! o)) as [|r l] eqn:Hentry; [done|].
    intros _. exists r. apply index_member. rewrite Hentry. by left.
Qed.

(** ** What a selected recipe is *)

Lemma policy_allows allow allowed r :
  alternate_policy allow allowed r = true →
  alternate_recipe r = true →
  allow = true ∧ ∀ l, allowed = Some l → In (id r) l.
Proof.
  unfold alternate_policy. intros Hpolicy Halt. rewrite Halt in Hpolicy.
  destruct allow; [|discriminate]. split; [done|].
  intros l ->. cbn in Hpolicy. by apply existsb_eqb_In.
Qed.

Lemma get_best_recipe_valid limit self resource0 max_phase prefer allow allowed r :
  get_best_recipe (S limit) self resource0 max_phase prefer allow allowed = Ok (Some r) →
  ∃ valid,
    valid_candidates (fun i => _get_raw_cost_recursive limit self i max_phase allow ∅ None)
      (candidates self resource0 max_phase allow allowed) = Ok valid
    ∧ In r valid.
Proof.
  rewrite get_best_recipe_unfold. unfold get_best_recipe_body.
  destruct (candidates self resource0 max_phase allow allowed) as [|c cands];
    [discriminate|].
  intros Hbest. bind_inv Hbest valid Hvalid. exists valid. split; [done|].
  destruct valid as [|first valid]; [discriminate|].
  destruct (prefer && (1 <? length (first :: valid))%nat).
  - bind_inv Hbest best Hsel. injection Hbest as <-.
    apply select_best_member in Hsel as [-> | Hin]; [by left | done].
  - injection Hbest as <-. by left.
Qed.

(** X3.  The recipe that [get_best_recipe] returns on a calculator built
    from a catalog is a recipe of the catalog whose outputs contain the
    resource, of a phase within [max_phase], allowed by the alternate policy,
    and every input of it that is not a base resource was estimated below
    9999.0 by the scan. *)
Theorem get_best_recipe_sound :
  ∀ limit rs resource max_phase prefer allow allowed r,
    get_best_recipe (S limit) (new_calculator rs) resource max_phase prefer allow allowed
    = Ok (Some r) →
    In r (map snd rs)
    ∧ In resource (map fst (outputs r))
    ∧ (phase r ≤ max_phase)%Z
    ∧ (alternate_recipe r = true → allow = true ∧ ∀ l, allowed = Some l → In (id r) l)
    ∧ (∀ i a, In (i, a) (inputs r) → in_base i = false →
         ∃ c, _get_raw_cost_recursive limit (new_calculator rs) i max_phase allow ∅ None
              = Ok c
              ∧ (9999 <=? c)%float = false).
Proof.
  intros limit rs resource0 max_phase prefer allow allowed r Hbest.
  destruct (get_best_recipe_valid _ _ _ _ _ _ _ _ Hbest) as (valid & Hvalid & Hr).
  pose proof (valid_candidates_subset _ _ _ Hvalid r Hr) as Hcand.
  unfold candidates, phase_candidates in Hcand.
  apply filter_In in Hcand as [Hphase Hpolicy].
  apply filter_In in Hphase as [Hindex Hphase].
  apply index_member in Hindex as [Hcatalog Houtput].
  split; [done|]. split; [done|]. split; [by apply Z.leb_le|].
  split; [by apply policy_allows|].
  apply scan_passed. by eapply valid_candidates_scan.
Qed.

Lemma get_best_recipe_sound_witness :
  get_best_recipe 3 (new_calculator (recipes ingot_catalog)) "PLATE" 1 true true (Some [])
  = Ok (Some ingot_plate)
  ∧ In ingot_plate (map snd (recipes ingot_catalog))
  ∧ In "PLATE" (map fst (outputs ingot_plate))
  ∧ (phase ingot_plate ≤ 1)%Z
  ∧ (alternate_recipe ingot_plate = true →
     true = true ∧ ∀ l, Some [] = Some l → In (id ingot_plate) l)
  ∧ (∀ i a, In (i, a) (inputs ingot_plate) → in_base i = false →
       ∃ c, _get_raw_cost_recursive 2 (new_calculator (recipes ingot_catalog)) i 1 true
              ∅ None = Ok c
            ∧ (9999 <=? c)%float = false).
Proof.
  split; [reflexivity|].
  exact (get_best_recipe_sound 2 (recipes ingot_catalog) "PLATE" 1 true true (Some [])
           ingot_plate eq_refl).
Defined.

(** ** Resources without a candidate *)

(** X4.  When no recipe is a candidate for a resource that is not a base
    resource (the catalog does not produce it, or only in a later phase, or
    only through alternates that the policy excludes), [get_best_recipe]
    returns none and the chain is the single node labelled "NO RECIPE", with
    the rate asked for, no building and no child. *)
Theorem no_candidate_gives_no_recipe :
  ∀ limit self resource q max_phase prefer allow allowed,
    in_base resource = false →
    candidates self resource max_phase allow allowed = [] →
    get_best_recipe (S limit) self resource max_phase prefer allow allowed = Ok None
    ∧ calculate_production_chain (S (S limit)) self resource q max_phase allow allowed
      = Ok {| resource := resource; quantity_per_minute := q; recipe := None;
              node_building_type := "NO RECIPE"; building_count := 0%float;
              depth := 0%Z; children := [] |}.
Proof.
  intros limit self resource0 q max_phase prefer allow allowed Hbase Hnone.
  assert (Hbest : ∀ pe, get_best_recipe (S limit) self resource0 max_phase pe allow allowed
                        = Ok None).
  { intros pe. rewrite get_best_recipe_unfold. unfold get_best_recipe_body.
    by rewrite Hnone. }
  split; [apply Hbest|].
  unfold calculate_production_chain. cbn [_build_chain_recursive].
  rewrite Hbase, (bool_decide_eq_false_2 _ (not_elem_of_empty (C:=gset string) resource0)).
  by rewrite Hbest.
Qed.

Lemma no_candidate_gives_no_recipe_witness :
  in_base "PLATE" = false
  ∧ candidates plate_catalog "PLATE" 0 true None = []
  ∧ get_best_recipe 1 plate_catalog "PLATE" 0 true true None = Ok None
  ∧ calculate_production_chain 2 plate_catalog "PLATE" 30%float 0 true None
    = Ok {| resource := "PLATE"; quantity_per_minute := 30%float; recipe := None;
            node_building_type := "NO RECIPE"; building_count := 0%float;
            depth := 0%Z; children := [] |}.
Proof.
  do 2 (split; [reflexivity|]).
  exact (no_candidate_gives_no_recipe 0 plate_catalog "PLATE" 30%float 0 true true None
           eq_refl eq_refl).
Defined.

(** ** Recipes that cannot be timed *)

(** X5.  The engine does not validate a recipe: when the recipe selected
    for a node has production time 0, or a throughput of 0 items per minute
    (an output quantity of 0), the builder raises [ZeroDivisionError] and
    returns no node. *)
Theorem untimed_recipe_raises :
  ∀ limit self resource q visited depth max_phase allow allowed r,
    in_base resource = false →
    resource ∉ visited →
    get_best_recipe limit self resource max_phase true allow allowed = Ok (Some r) →
    (production_time r =? 0)%float = true
    ∨ (throughput r resource =? 0)%float = true →
    _build_chain_recursive (S limit) self resource q visited depth max_phase allow allowed
    = Raise ZeroDivisionError.
Proof.
  intros limit self resource0 q visited d max_phase allow allowed r
    Hbase Hvisited Hbest Hzero.
  cbn [_build_chain_recursive]. rewrite Hbase, (bool_decide_eq_false_2 _ Hvisited).
  rewrite Hbest, bind_Ok. unfold float_truediv.
  destruct (production_time r =? 0)%float eqn:Htime; [done|].
  destruct Hzero as [Hzero | Hzero]; [discriminate|].
  cbv iota. rewrite bind_Ok. unfold throughput in Hzero. by rewrite Hzero.
Qed.

Lemma untimed_recipe_raises_witness :
  in_base "SPARK" = false
  ∧ ("SPARK" ∉ (∅ : gset string))
  ∧ get_best_recipe 1 instant_catalog "SPARK" 1 true true None = Ok (Some instant)
  ∧ ((production_time instant =? 0)%float = true
     ∨ (throughput instant "SPARK" =? 0)%float = true)
  ∧ _build_chain_recursive 2 instant_catalog "SPARK" 30%float ∅ 0 1 true None
    = Raise ZeroDivisionError.
Proof.
  assert (Hfresh : "SPARK" ∉ (∅ : gset string)) by apply not_elem_of_empty.
  assert (Hzero : (production_time instant =? 0)%float = true
                  ∨ (throughput instant "SPARK" =? 0)%float = true) by (left; reflexivity).
  do 4 (split; [first [reflexivity | assumption]|]).
  exact (untimed_recipe_raises 1 instant_catalog "SPARK" 30%float ∅ 0 1 true None instant
           eq_refl Hfresh eq_refl Hzero).
Defined.

(** ** The shape of a returned tree *)

Lemma build_children_forall (P : ProductionNode → Prop) build output_amount q ins cs :
  (∀ i a qi c, In (i, a) ins → String.eqb i "NONE" = false → build i qi = Ok c → P c) →
  build_children build output_amount q ins = Ok cs →
  Forall P cs.
Proof.
  revert cs. induction ins as [|[i a] ins IH]; intros cs Hbuild Hcs.
  - cbn in Hcs. by injection Hcs as <-.
  - assert (Hrest : ∀ i' a' qi c, In (i', a') ins → String.eqb i' "NONE" = false →
                                  build i' qi = Ok c → P c)
      by (intros i' a' qi c Hin; apply (Hbuild i' a'); by right).
    cbn in Hcs. destruct (String.eqb i "NONE") eqn:Hi; [by apply IH|].
    bind_inv Hcs ratio Hratio. bind_inv Hcs c Hc. bind_inv Hcs more Hmore.
    injection Hcs as <-. constructor; [|by apply IH].
    by eapply (Hbuild i a); [left | |].
Qed.

Lemma Forall_flat_map_nodes (P : ProductionNode → Prop) cs :
  Forall (fun c => Forall P (nodes c)) cs → Forall P (flat_map nodes cs).
Proof.
  induction 1 as [|c cs Hc _ IH]; [constructor|]. cbn [flat_map]. by apply Forall_app.
Qed.

(** X6.  In a tree returned by [calculate_production_chain] the root carries
    the target and the rate asked for, and the children of a node with a
    resolved recipe are its inputs other than "NONE", in the order of the
    recipe, each at the rate
    [(input_amount / output_amount) * quantity_per_minute] of its parent. *)
Theorem children_follow_inputs :
  ∀ limit self target q max_phase allow allowed tree,
    calculate_production_chain limit self target q max_phase allow allowed = Ok tree →
    resource tree = target
    ∧ quantity_per_minute tree = q
    ∧ ∀ n r, In n (nodes tree) → recipe n = Some r →
        map (fun c => (resource c, quantity_per_minute c)) (children n) =
        map (fun i =>
               (fst i,
                (float_of_int (snd i) / float_of_int (dict_get (outputs r) (resource n) 1)
                 * quantity_per_minute n)%float))
            (List.filter (fun i => negb (String.eqb (fst i) "NONE")) (inputs r)).
Proof.
  intros limit self target q max_phase allow allowed tree Hchain.
  apply build_chain_local in Hchain as (Hres & Hq & Hlocal).
  split; [done|]. split; [done|]. intros n r Hn Hr.
  rewrite List.Forall_forall in Hlocal. specialize (Hlocal n Hn).
  unfold chain_local in Hlocal. rewrite Hr in Hlocal.
  by destruct Hlocal as (_ & _ & _ & _ & _ & _ & _ & Hrates).
Qed.

Lemma children_follow_inputs_witness :
  calculate_production_chain 3 iron_catalog "IRON_INGOT" 30%float 1 true None = Ok iron_tree
  ∧ resource iron_tree = "IRON_INGOT"
  ∧ quantity_per_minute iron_tree = 30%float
  ∧ ∀ n r, In n (nodes iron_tree) → recipe n = Some r →
      map (fun c => (resource c, quantity_per_minute c)) (children n) =
      map (fun i =>
             (fst i,
              (float_of_int (snd i) / float_of_int (dict_get (outputs r) (resource n) 1)
               * quantity_per_minute n)%float))
          (List.filter (fun i => negb (String.eqb (fst i) "NONE")) (inputs r)).
Proof.
  split; [reflexivity|].
  exact (children_follow_inputs 3 iron_catalog "IRON_INGOT" 30%float 1 true None
           iron_tree eq_refl).
Defined.

(** X7.  In a returned tree a node has no child exactly when it has no
    recipe.  A node without recipe has building count 0 and carries the
    label "Miner/Extractor" when its resource is a base resource, "CIRCULAR"
    or "NO RECIPE" otherwise; a node with a recipe is not a base resource
    and carries the building type of its recipe, which is a candidate for
    its resource. *)
Theorem terminal_iff_unresolved :
  ∀ limit self target q max_phase allow allowed tree,
    calculate_production_chain limit self target q max_phase allow allowed = Ok tree →
    ∀ n, In n (nodes tree) →
      (children n = [] ↔ recipe n = None)
      ∧ (recipe n = None →
         building_count n = 0%float
         ∧ (if in_base (resource n) then node_building_type n = "Miner/Extractor"
            else node_building_type n = "CIRCULAR"
                 ∨ node_building_type n = "NO RECIPE"))
      ∧ (∀ r, recipe n = Some r →
              in_base (resource n) = false
              ∧ node_building_type n = building_type r
              ∧ In r (candidates self (resource n) max_phase allow allowed)).
Proof.
  intros limit self target q max_phase allow allowed tree Hchain n Hn.
  apply build_chain_local in Hchain as (_ & _ & Hlocal).
  rewrite List.Forall_forall in Hlocal. specialize (Hlocal n Hn).
  unfold chain_local in Hlocal. destruct (recipe n) as [r|].
  - destruct Hlocal as (Hbase & Hcand & Hlabel & _ & _ & _ & Hchildren & _).
    split; [split; [intros Hnil; destruct (Hchildren Hnil) | discriminate]|].
    split; [discriminate|].
    intros r' Hr'. injection Hr' as <-.
    split; [exact Hbase|]. split; [exact Hlabel | exact Hcand].
  - destruct Hlocal as (Hcount & Hchildren & Hlabel).
    split; [split; intros _; [reflexivity | exact Hchildren]|].
    split; [intros _; split; [exact Hcount | exact Hlabel] | discriminate].
Qed.

Lemma terminal_iff_unresolved_witness :
  calculate_production_chain 3 iron_catalog "IRON_INGOT" 30%float 1 true None = Ok iron_tree
  ∧ ∀ n, In n (nodes iron_tree) →
      (children n = [] ↔ recipe n = None)
      ∧ (recipe n = None →
         building_count n = 0%float
         ∧ (if in_base (resource n) then node_building_type n = "Miner/Extractor"
            else node_building_type n = "CIRCULAR"
                 ∨ node_building_type n = "NO RECIPE"))
      ∧ (∀ r, recipe n = Some r →
              in_base (resource n) = false
              ∧ node_building_type n = building_type r
              ∧ In r (candidates iron_catalog (resource n) 1 true None)).
Proof.
  split; [reflexivity|].
  exact (terminal_iff_unresolved 3 iron_catalog "IRON_INGOT" 30%float 1 true None
           iron_tree eq_refl).
Defined.

Lemma build_chain_depths self max_phase allow allowed limit :
  ∀ x q visited d tree,
    _build_chain_recursive limit self x q visited d max_phase allow allowed = Ok tree →
    depth tree = d
    ∧ Forall (fun n => Forall (fun c => depth c = (depth n + 1)%Z) (children n))
        (nodes tree).
Proof.
  induction limit as [|limit IH]; intros x q visited d tree Hbuild; [discriminate|].
  cbn [_build_chain_recursive] in Hbuild.
  destruct (in_base x) eqn:Hbase.
  { injection Hbuild as <-. split; [done|]. by repeat constructor. }
  destruct (bool_decide (x ∈ visited)).
  { injection Hbuild as <-. split; [done|]. by repeat constructor. }
  bind_inv Hbuild best Hbest. destruct best as [r|]; cycle 1.
  { injection Hbuild as <-. split; [done|]. by repeat constructor. }
  bind_inv Hbuild cycles Hcycles. bind_inv Hbuild count Hcount. bind_inv Hbuild cs Hcs.
  apply (build_children_forall
           (fun c => depth c = (d + 1)%Z
                     ∧ Forall (fun n => Forall (fun c' => depth c' = (depth n + 1)%Z)
                                          (children n)) (nodes c))) in Hcs;
    [|intros i a qi c _ _ Hc; by apply IH in Hc].
  destruct cs as [|c cs].
  { cbn in Hbuild. injection Hbuild as <-. split; [done|]. by repeat constructor. }
  injection Hbuild as <-. split; [done|]. cbn [nodes children depth].
  constructor.
  - cbn. eapply Forall_impl; [exact Hcs|]. by intros c' [Hdepth _].
  - apply Forall_flat_map_nodes. eapply Forall_impl; [exact Hcs|]. by intros c' [_ Hnodes].
Qed.

(** X8.  In a returned tree the root is at depth 0 and every child is one
    level below its parent. *)
Theorem depths_count_levels :
  ∀ limit self target q max_phase allow allowed tree,
    calculate_production_chain limit self target q max_phase allow allowed = Ok tree →
    depth tree = 0%Z
    ∧ ∀ n c, In n (nodes tree) → In c (children n) → depth c = (depth n + 1)%Z.
Proof.
  intros limit self target q max_phase allow allowed tree Hchain.
  apply build_chain_depths in Hchain as [Hroot Hlevels]. split; [done|].
  intros n c Hn Hc. rewrite List.Forall_forall in Hlevels.
  specialize (Hlevels n Hn). rewrite List.Forall_forall in Hlevels. by apply Hlevels.
Qed.

Lemma depths_count_levels_witness :
  calculate_production_chain 3 iron_catalog "IRON_INGOT" 30%float 1 true None = Ok iron_tree
  ∧ depth iron_tree = 0%Z
  ∧ ∀ n c, In n (nodes iron_tree) → In c (children n) → depth c = (depth n + 1)%Z.
Proof.
  split; [reflexivity|].
  exact (depths_count_levels 3 iron_catalog "IRON_INGOT" 30%float 1 true None
           iron_tree eq_refl).
Defined.

(** ** The cycle guard of the builder *)

Lemma valid_candidates_scans cost cands valid r :
  valid_candidates cost cands = Ok valid → In r cands →
  ∃ b, all_inputs_producible cost (inputs r) = Ok b.
Proof.
  revert valid. induction cands as [|c cands IH]; intros valid Hvalid Hr; [done|].
  cbn in Hvalid. bind_inv Hvalid ok Hok. bind_inv Hvalid rest Hrest.
  destruct Hr as [<- | Hr]; [by exists ok | by eapply IH].
Qed.

Section cycle_guard.
Context (self : ProductionCalculator) (max_phase : Z) (allow : bool).

Local Abbreviation is_answered := (answered self max_phase allow).
Local Abbreviation is_above := (above self max_phase allow).
Local Abbreviation estimate m :=
  (fun i : string => _get_raw_cost_recursive m self i max_phase allow ∅ None).

Lemma above_irreflexive k x : is_answered k x → ¬ is_above x x.
Proof.
  intros Hk Habove. induction k as [k IH] using lt_wf_ind.
  destruct (Habove k Hk) as (k' & Hlt & Hk'). by apply (IH k').
Qed.

Lemma above_transitive v x i : is_above v x → is_above x i → is_above v i.
Proof.
  intros Hvx Hxi k Hk.
  destruct (Hvx k Hk) as (k1 & Hlt1 & Hk1). destruct (Hxi k1 Hk1) as (k2 & Hlt2 & Hk2).
  exists k2. split; [lia | done].
Qed.

Lemma candidates_without_list x allowed r :
  In r (candidates self x max_phase allow allowed) →
  In r (candidates self x max_phase allow None).
Proof.
  unfold candidates. rewrite !filter_In. intros [Hin Hpolicy]. split; [done|].
  unfold alternate_policy in *. by destruct allow.
Qed.

Lemma estimate_answers m i c :
  _get_raw_cost_recursive m self i max_phase allow ∅ None = Ok c →
  in_base i = false → ∃ m', m = S m' ∧ is_answered m' i.
Proof.
  destruct m as [|m']; [discriminate|]. intros Hcost Hi. exists m'. split; [done|].
  rewrite raw_cost_unfold in Hcost. unfold raw_cost_body in Hcost.
  rewrite Hi, (bool_decide_eq_false_2 _ (not_elem_of_empty (C:=gset string) i)) in Hcost.
  unfold answered.
  destruct (get_best_recipe m' self i max_phase false allow None) as [res|e];
    [by exists res | discriminate].
Qed.

(** The scan of a list of inputs gives the same answer at any two depths
    at which it returns. *)
Lemma scan_agrees m l ins b b' :
  all_inputs_producible (estimate m) ins = Ok b →
  all_inputs_producible (estimate l) ins = Ok b' →
  b = b'.
Proof.
  intros Hm Hl.
  assert (Hrefines : ∀ k k', (k ≤ k')%nat → refines (estimate k) (estimate k'))
    by (intros k k' Hle i Hrun; by apply raw_cost_depth).
  destruct (Nat.le_ge_cases m l) as [Hle | Hge].
  - rewrite (all_inputs_producible_mono _ _ ins (Hrefines m l Hle)) in Hl;
      [congruence | unfold overflowed; by rewrite Hm].
  - rewrite (all_inputs_producible_mono _ _ ins (Hrefines l m Hge)) in Hm;
      [congruence | unfold overflowed; by rewrite Hl].
Qed.

(** The non-base inputs of a recipe that [get_best_recipe] returns, under
    any preference and allow-list: the estimates have a selection for each,
    made before any selection for the resource itself returned. *)
Lemma selected_above l x prefer allowed r i a :
  get_best_recipe l self x max_phase prefer allow allowed = Ok (Some r) →
  In (i, a) (inputs r) → in_base i = false →
  (∃ k, is_answered k i) ∧ is_above x i.
Proof.
  intros Hbest Hin Hi. destruct l as [|l]; [discriminate|].
  destruct (get_best_recipe_valid _ _ _ _ _ _ _ _ Hbest) as (valid & Hvalid & Hr).
  pose proof (valid_candidates_scan _ _ _ _ Hvalid Hr) as Hscan.
  pose proof (valid_candidates_subset _ _ _ Hvalid r Hr) as Hcand.
  apply candidates_without_list in Hcand.
  split.
  - destruct (scan_passed _ _ Hscan i a Hin Hi) as (c & Hc & _).
    destruct (estimate_answers l i c Hc Hi) as (l' & _ & Hanswered). by exists l'.
  - intros k [res Hres]. destruct k as [|m]; [discriminate|].
    rewrite get_best_recipe_unfold in Hres. unfold get_best_recipe_body in Hres.
    destruct (candidates self x max_phase allow None) as [|c0 cands] eqn:Hcands; [done|].
    bind_inv Hres valid' Hvalid'.
    destruct (valid_candidates_scans _ _ _ r Hvalid' Hcand) as [b Hb].
    rewrite (scan_agrees m l (inputs r) b true Hb Hscan) in Hb.
    destruct (scan_passed _ _ Hb i a Hin Hi) as (c & Hc & _).
    destruct (estimate_answers m i c Hc Hi) as (m' & -> & Hanswered).
    exists m'. split; [lia | done].
Qed.

(** The builder never meets a resource of its visited set, when the set
    holds ancestors only. *)
Lemma build_never_circular allowed limit :
  ∀ x q (visited : gset string) d tree,
    (in_base x = false →
     ∀ v, v ∈ visited → is_above v x ∧ ∃ k, is_answered k x) →
    _build_chain_recursive limit self x q visited d max_phase allow allowed = Ok tree →
    Forall (fun n => recipe n = None → node_building_type n ≠ "CIRCULAR") (nodes tree).
Proof.
  induction limit as [|limit IH]; intros x q visited d tree Hvisited Hbuild;
    [discriminate|].
  cbn [_build_chain_recursive] in Hbuild.
  destruct (in_base x) eqn:Hbase.
  { injection Hbuild as <-. by repeat constructor. }
  specialize (Hvisited eq_refl).
  destruct (bool_decide (x ∈ visited)) eqn:Hin.
  { apply bool_decide_eq_true_1 in Hin.
    destruct (Hvisited x Hin) as (Habove & k & Hk). by destruct (above_irreflexive k x). }
  bind_inv Hbuild best Hbest. destruct best as [r|]; cycle 1.
  { injection Hbuild as <-. by repeat constructor. }
  bind_inv Hbuild cycles Hcycles. bind_inv Hbuild count Hcount. bind_inv Hbuild cs Hcs.
  apply (build_children_forall
           (fun c => Forall (fun n => recipe n = None → node_building_type n ≠ "CIRCULAR")
                       (nodes c))) in Hcs; cycle 1.
  { intros i a qi c Hinput _ Hc. apply IH in Hc; [done|].
    intros Hi v Hv.
    destruct (selected_above limit x true allowed r i a Hbest Hinput Hi)
      as [Hanswered Habove].
    split; [|done].
    apply elem_of_union in Hv as [Hself | Hrest].
    - apply elem_of_singleton in Hself. by subst v.
    - apply (above_transitive v x i); [by apply Hvisited | done]. }
  destruct cs as [|c cs].
  { cbn in Hbuild. injection Hbuild as <-. by repeat constructor. }
  injection Hbuild as <-. cbn [nodes children].
  constructor; [discriminate|]. by apply Forall_flat_map_nodes.
Qed.
End cycle_guard.

(** X9.  No tree returned by [calculate_production_chain] has a node
    labelled "CIRCULAR": a chain that leads back to a resource on its path
    has no tree at all, the selection for that resource not returning (as
    on the cyclic catalog).  So in a returned tree a node without recipe is
    a base resource labelled "Miner/Extractor" or a resource labelled
    "NO RECIPE". *)
Theorem returned_tree_has_no_cycle_node :
  ∀ limit self target q max_phase allow allowed tree,
    calculate_production_chain limit self target q max_phase allow allowed = Ok tree →
    ∀ n, In n (nodes tree) → recipe n = None →
      node_building_type n ≠ "CIRCULAR"
      ∧ (node_building_type n = "Miner/Extractor" ∨ node_building_type n = "NO RECIPE").
Proof.
  intros limit self target q max_phase allow allowed tree Hchain n Hn Hnone.
  pose proof (build_chain_local _ _ _ _ _ _ _ _ _ _ Hchain) as (_ & _ & Hlocal).
  apply build_never_circular in Hchain;
    [|intros _ v Hv; by apply not_elem_of_empty in Hv].
  rewrite List.Forall_forall in Hchain, Hlocal.
  specialize (Hchain n Hn Hnone). specialize (Hlocal n Hn).
  split; [done|]. unfold chain_local in Hlocal. rewrite Hnone in Hlocal.
  destruct Hlocal as (_ & _ & Hlabel).
  destruct (in_base (resource n)); [by left|].
  destruct Hlabel as [Hcircular | Hnorecipe]; [done | by right].
Qed.

Lemma returned_tree_has_no_cycle_node_witness :
  calculate_production_chain 4 ingot_catalog "PLATE" 30%float 1 true (Some [])
  = Ok {| resource := "PLATE"; quantity_per_minute := 30%float;
          recipe := Some ingot_plate; node_building_type := "Smelter";
          building_count := 1%float; depth := 0%Z;
          children := [terminal "NO RECIPE" "INGOT" 30%float 1%Z] |}
  ∧ ∀ n,
      In n (nodes {| resource := "PLATE"; quantity_per_minute := 30%float;
                     recipe := Some ingot_plate; node_building_type := "Smelter";
                     building_count := 1%float; depth := 0%Z;
                     children := [terminal "NO RECIPE" "INGOT" 30%float 1%Z] |}) →
      recipe n = None →
      node_building_type n ≠ "CIRCULAR"
      ∧ (node_building_type n = "Miner/Extractor" ∨ node_building_type n = "NO RECIPE").
Proof.
  split; [reflexivity|].
  exact (returned_tree_has_no_cycle_node 4 ingot_catalog "PLATE" 30%float 1 true (Some [])
           _ eq_refl).
Defined.

(** ** Alternates in the totals *)

(** X10.  The alternate recipes that [get_total_requirements] reports for a
    returned tree obey the policy the tree was built under: with
    [allow_alternate] false the list is empty, and otherwise every name in
    it is the display name of an alternate recipe that is a candidate for
    the resource of some node and whose identifier is in the allow-list, if
    one was given. *)
Theorem reported_alternates_are_allowed :
  ∀ limit self target q max_phase allow allowed tree,
    calculate_production_chain limit self target q max_phase allow allowed = Ok tree →
    (allow = false → alternate_recipes (get_total_requirements self tree) = [])
    ∧ (∀ name, In name (alternate_recipes (get_total_requirements self tree)) →
         ∃ n r, In n (nodes tree) ∧ recipe n = Some r
                ∧ display_name r = name ∧ alternate_recipe r = true
                ∧ In r (candidates self (resource n) max_phase allow allowed)
                ∧ ∀ l, allowed = Some l → In (id r) l).
Proof.
  intros limit self target q max_phase allow allowed tree Hchain.
  apply build_chain_local in Hchain as (_ & _ & Hlocal).
  rewrite List.Forall_forall in Hlocal.
  destruct (total_requirements_of_tree self tree) as (_ & _ & _ & _ & Hnames).
  assert (Hreported : ∀ name,
    In name (alternate_recipes (get_total_requirements self tree)) →
    allow = true
    ∧ ∃ n r, In n (nodes tree) ∧ recipe n = Some r
             ∧ display_name r = name ∧ alternate_recipe r = true
             ∧ In r (candidates self (resource n) max_phase allow allowed)
             ∧ ∀ l, allowed = Some l → In (id r) l).
  { intros name Hname. apply Hnames in Hname as (n & r & Hn & Hr & Halt & Hdisplay).
    specialize (Hlocal n Hn). unfold chain_local in Hlocal. rewrite Hr in Hlocal.
    destruct Hlocal as (_ & Hcand & _).
    pose proof Hcand as Hpolicy. unfold candidates in Hpolicy.
    apply filter_In in Hpolicy as [_ Hpolicy].
    destruct (policy_allows _ _ _ Hpolicy Halt) as [Hallow Hlist].
    split; [done|]. by exists n, r. }
  split.
  - intros ->.
    destruct (alternate_recipes (get_total_requirements self tree)) as [|name names] eqn:Hl;
      [done|].
    by destruct (Hreported name (or_introl eq_refl)).
  - intros name Hname. by destruct (Hreported name Hname).
Qed.

Lemma reported_alternates_are_allowed_witness :
  calculate_production_chain 3 iron_catalog "IRON_INGOT" 30%float 1 false None = Ok iron_tree
  ∧ (false = false → alternate_recipes (get_total_requirements iron_catalog iron_tree) = [])
  ∧ (∀ name, In name (alternate_recipes (get_total_requirements iron_catalog iron_tree)) →
       ∃ n r, In n (nodes iron_tree) ∧ recipe n = Some r
              ∧ display_name r = name ∧ alternate_recipe r = true
              ∧ In r (candidates iron_catalog (resource n) 1 false None)
              ∧ ∀ l, None = Some l → In (id r) l).
Proof.
  split; [reflexivity|].
  exact (reported_alternates_are_allowed 3 iron_catalog "IRON_INGOT" 30%float 1 false None
           iron_tree eq_refl).
Defined.

(** ** Display names *)

Lemma title_char_spec (previous_is_cased : bool) (c : ascii) :
  let c' := (if Ascii.eqb c "_" then " " else c)%char in
  let t := if previous_is_cased then to_lower c' else to_upper c' in
  t ≠ "_"%char
  ∧ to_lower t = to_lower c'
  ∧ is_cased t = is_cased c'
  ∧ (if previous_is_cased then is_upper t else is_lower t) = false.
Proof.
  destruct previous_is_cased, c as [[] [] [] [] [] [] [] []]; vm_compute;
    (split; [discriminate|]); by repeat split.
Qed.

Lemma title_from_replaced_spec previous_is_cased s :
  let d := title_from previous_is_cased (replace_underscores s) in
  String.length d = String.length s
  ∧ ¬ In "_"%char (list_ascii_of_string d)
  ∧ map to_lower (list_ascii_of_string d)
    = map to_lower (list_ascii_of_string (replace_underscores s))
  ∧ (∀ c, String.get 0 d = Some c →
          (if previous_is_cased then is_upper c else is_lower c) = false)
  ∧ (∀ i p c, String.get i d = Some p → String.get (S i) d = Some c →
              (if is_cased p then is_upper c else is_lower c) = false).
Proof.
  revert previous_is_cased. induction s as [|c s IH]; intros previous_is_cased.
  { cbn. split; [done|]. split; [by intros []|]. split; [done|]. by split. }
  cbn [replace_underscores title_from String.length list_ascii_of_string map].
  destruct (title_char_spec previous_is_cased c) as (Hnot & Hlower & Hcased & Hcase).
  cbn zeta in Hnot, Hlower, Hcased, Hcase.
  set (c' := (if Ascii.eqb c "_" then " " else c)%char) in *.
  change (is_upper c' || is_lower c') with (is_cased c').
  destruct (IH (is_cased c')) as (Hlen & Hnone & Hsame & Hfirst & Hnext).
  cbn zeta in Hlen, Hnone, Hsame, Hfirst, Hnext.
  split; [by rewrite Hlen|].
  split; [intros [Hhead | Htail]; [by apply Hnot | done]|].
  split; [by rewrite Hlower, Hsame|].
  split; [intros t [= <-]; exact Hcase|].
  intros [|i] p t.
  - cbn [String.get]. intros [= <-]. rewrite Hcased. apply Hfirst.
  - cbn [String.get]. apply Hnext.
Qed.

(** X11.  An ASCII identifier without an entry in the display-name map is
    displayed in title case: the name has the length of the identifier and
    no underscore; it is the identifier with spaces for underscores, up to
    the case of the letters; its first character is not a lower-case
    letter; and a character that follows a letter is not upper-case, while
    one that follows anything else is not lower-case. *)
Theorem display_name_of_identifier :
  ∀ self resource,
    isascii resource = true →
    display_name_map self !! resource = None →
    String.length (get_display_name self resource) = String.length resource
    ∧ ¬ In "_"%char (list_ascii_of_string (get_display_name self resource))
    ∧ map to_lower (list_ascii_of_string (get_display_name self resource))
      = map to_lower (list_ascii_of_string (replace_underscores resource))
    ∧ (∀ c, String.get 0 (get_display_name self resource) = Some c → is_lower c = false)
    ∧ (∀ i p c,
         String.get i (get_display_name self resource) = Some p →
         String.get (S i) (get_display_name self resource) = Some c →
         (if is_cased p then is_upper c else is_lower c) = false).
Proof.
  intros self resource0 _ Hnone. unfold get_display_name. rewrite Hnone. cbn [default].
  apply (title_from_replaced_spec false).
Qed.

Lemma display_name_of_identifier_witness :
  isascii "IRON_INGOT" = true
  ∧ display_name_map iron_catalog !! "IRON_INGOT" = None
  ∧ get_display_name iron_catalog "IRON_INGOT" = "Iron Ingot"
  ∧ String.length (get_display_name iron_catalog "IRON_INGOT") = String.length "IRON_INGOT"
  ∧ ¬ In "_"%char (list_ascii_of_string (get_display_name iron_catalog "IRON_INGOT"))
  ∧ map to_lower (list_ascii_of_string (get_display_name iron_catalog "IRON_INGOT"))
    = map to_lower (list_ascii_of_string (replace_underscores "IRON_INGOT"))
  ∧ (∀ c, String.get 0 (get_display_name iron_catalog "IRON_INGOT") = Some c →
          is_lower c = false)
  ∧ (∀ i p c,
       String.get i (get_display_name iron_catalog "IRON_INGOT") = Some p →
       String.get (S i) (get_display_name iron_catalog "IRON_INGOT") = Some c →
       (if is_cased p then is_upper c else is_lower c) = false).
Proof.
  do 3 (split; [reflexivity|]).
  exact (display_name_of_identifier iron_catalog "IRON_INGOT" eq_refl eq_refl).
Defined.

(** Upper-case identifiers with underscores become title-cased words. *)
Example display_names :
  get_display_name iron_catalog "IRON_INGOT" = "Iron Ingot"
  ∧ get_display_name iron_catalog "MAGIC_ESSENCE" = "Magic Essence"
  ∧ get_display_name (set_display_names iron_catalog {[ "ORE" := "Iron Ore" ]}) "ORE"
    = "Iron Ore".
Proof. repeat split; reflexivity. Qed.

(** ** The estimate of a resolved resource *)

Lemma raw_cost_inputs_congr c1 c2 output_amount ins :
  (∀ i a, In (i, a) ins → ¬ overflowed (c1 i) → c2 i = c1 i) →
  ∀ total valid_inputs,
    ¬ overflowed (raw_cost_inputs c1 output_amount ins total valid_inputs) →
    raw_cost_inputs c2 output_amount ins total valid_inputs
    = raw_cost_inputs c1 output_amount ins total valid_inputs.
Proof.
  induction ins as [|[i a] ins IH]; intros Href total valid_inputs; [done|].
  cbn. assert (Hrest : ∀ i' a', In (i', a') ins → ¬ overflowed (c1 i') → c2 i' = c1 i')
    by (intros i' a' Hin; apply (Href i' a'); by right).
  destruct (String.eqb i "NONE"); [by apply IH|].
  destruct (int_truediv a output_amount) as [ratio|e]; [|done]. cbn. intros Hrun.
  rewrite (Href i a) by (by left || by eapply bind_not_overflowed).
  destruct (c1 i) as [ci|e]; [|done]. cbn in Hrun |- *. by apply IH.
Qed.

(** The estimate of an input of a selected recipe is the same with the
    resource of the recipe in the visited set and without it. *)
Lemma input_estimate_unvisited self max_phase allow limit x r i a :
  get_best_recipe limit self x max_phase false allow None = Ok (Some r) →
  In (i, a) (inputs r) →
  ¬ overflowed (_get_raw_cost_recursive limit self i max_phase allow ({[x]} ∪ ∅) None) →
  _get_raw_cost_recursive limit self i max_phase allow ∅ None
  = _get_raw_cost_recursive limit self i max_phase allow ({[x]} ∪ ∅) None.
Proof.
  intros Hbest Hin Hrun.
  assert (Hfresh : ∀ k v, v ∈ (∅ : gset string) → ¬ settled self max_phase allow k v)
    by (intros k v Hv; by apply not_elem_of_empty in Hv).
  destruct (selected_input_depth self max_phase allow limit x r ∅ i a Hbest
              (Hfresh limit) Hin) as (k' & Hi & Hvisited & _).
  rewrite <- !raw_cost_marked_erase. f_equal.
  apply (visited_set_irrelevant self max_phase allow limit i _ _ k' Hi Hvisited (Hfresh k')).
  intros Hover. apply Hrun. unfold overflowed in *.
  by rewrite <- raw_cost_marked_erase, Hover.
Qed.

(** X12.  The estimate that the scan makes of a resource for which a recipe
    is selected is the sum, over the inputs of that recipe other than
    "NONE", of [input_amount / output_amount] times the scan's own estimate
    of the input, or 999999.0 when there is no such input: the visited set
    that [_get_raw_cost_recursive] passes down changes no estimate, and every
    input that is not a base resource is estimated below 9999.0. *)
Theorem estimate_equation :
  ∀ limit self x max_phase allow r c,
    in_base x = false →
    get_best_recipe limit self x max_phase false allow None = Ok (Some r) →
    _get_raw_cost_recursive (S limit) self x max_phase allow ∅ None = Ok c →
    (∃ total_cost valid_inputs,
       raw_cost_inputs (fun i => _get_raw_cost_recursive limit self i max_phase allow ∅ None)
         (dict_get (outputs r) x 1) (inputs r) 0%float 0%Z
       = Ok (total_cost, valid_inputs)
       ∧ c = if (valid_inputs =? 0)%Z then 999999%float else total_cost)
    ∧ ∀ i a, In (i, a) (inputs r) → in_base i = false →
        ∃ ci, _get_raw_cost_recursive limit self i max_phase allow ∅ None = Ok ci
              ∧ (9999 <=? ci)%float = false.
Proof.
  intros limit self x max_phase allow r c Hbase Hbest Hcost. split.
  - rewrite raw_cost_unfold in Hcost. unfold raw_cost_body in Hcost.
    rewrite Hbase, (bool_decide_eq_false_2 _ (not_elem_of_empty (C:=gset string) x)),
      Hbest, bind_Ok in Hcost.
    rewrite (raw_cost_inputs_congr
               (fun i => _get_raw_cost_recursive limit self i max_phase allow ({[x]} ∪ ∅) None)
               (fun i => _get_raw_cost_recursive limit self i max_phase allow ∅ None)).
    + bind_inv Hcost loop Hloop. destruct loop as [total_cost valid_inputs].
      exists total_cost, valid_inputs. split; [done|].
      destruct (valid_inputs =? 0)%Z; by injection Hcost.
    + intros i a Hin Hrun. by apply (input_estimate_unvisited _ _ _ _ x r i a).
    + eapply bind_not_overflowed. by rewrite Hcost.
  - intros i a Hin Hi.
    destruct (selected_inputs self max_phase allow limit x r Hbest) as (m & Hm & _ & Hinputs).
    destruct (Hinputs i a Hin Hi) as (ci & Hci & Hbelow). exists ci. split; [|done].
    rewrite (raw_cost_depth _ m limit) by (lia || unfold overflowed; by rewrite Hci). done.
Qed.

Lemma estimate_equation_witness :
  in_base "PLATE" = false
  ∧ get_best_recipe 3 ingot_catalog "PLATE" 1 false true None = Ok (Some ingot_plate)
  ∧ _get_raw_cost_recursive 4 ingot_catalog "PLATE" 1 true ∅ None = Ok 1%float
  ∧ (∃ total_cost valid_inputs,
       raw_cost_inputs (fun i => _get_raw_cost_recursive 3 ingot_catalog i 1 true ∅ None)
         (dict_get (outputs ingot_plate) "PLATE" 1) (inputs ingot_plate) 0%float 0%Z
       = Ok (total_cost, valid_inputs)
       ∧ 1%float = if (valid_inputs =? 0)%Z then 999999%float else total_cost)
  ∧ ∀ i a, In (i, a) (inputs ingot_plate) → in_base i = false →
      ∃ ci, _get_raw_cost_recursive 3 ingot_catalog i 1 true ∅ None = Ok ci
            ∧ (9999 <=? ci)%float = false.
Proof.
  do 3 (split; [reflexivity|]).
  exact (estimate_equation 3 ingot_catalog "PLATE" 1 true ingot_plate 1%float
           eq_refl eq_refl eq_refl).
Defined.

(** ** The graph view *)

Section graph_view.
Import web_calculator.
Context (self : ProductionCalculator).

Lemma for_each_app {A B} (f : A → B → outcome A) l1 l2 a :
  for_each f (l1 ++ l2) a = for_each f l1 a ≫= for_each f l2.
Proof.
  revert a. induction l1 as [|x l1 IH]; intros a; [done|]. cbn.
  destruct (f a x) as [a'|e]; [apply IH | done].
Qed.

Lemma bind_Returns_inv {A B} (f : A → outcome B) (m : outcome A) (b : B) :
  (m ≫= f) = Returns b → ∃ a, m = Returns a ∧ f a = Returns b.
Proof. destruct m as [a|e]; [eauto | discriminate]. Qed.

(** [traverse] makes the visits of [visits], in order. *)
Lemma traverse_visits node :
  ∀ parent_key g,
    traverse self node parent_key g = for_each (step self) (visits node parent_key) g.
Proof.
  induction node as [res q r label count d cs IH] using ProductionNode_nested_ind.
  intros parent_key g. cbn [traverse visits recipe children node_building_type].
  destruct r as [r|]; [|by cbn; destruct (visit_raw _ _ _ _)].
  generalize (outputs r). intros outs. revert g.
  induction outs as [|output outs IHouts]; intros g; [done|].
  cbn [flat_map for_each]. rewrite <- app_comm_cons. cbn [for_each step].
  destruct (visit_output _ _ _ _ _ _) as [g1|e]; [|done]. cbn.
  rewrite for_each_app.
  assert (Hchildren : ∀ g0,
    for_each (fun g child => traverse self child (Some (label ++ ":" ++ id r)) g) cs g0
    = for_each (step self)
        (flat_map (fun child => visits child (Some (label ++ ":" ++ id r))) cs) g0).
  { clear -IH. induction IH as [|c cs Hc _ IHcs]; intros g0; [done|].
    cbn [flat_map for_each]. rewrite for_each_app, Hc.
    destruct (for_each _ _ _) as [g1|e]; [apply IHcs | done]. }
  rewrite Hchildren. destruct (for_each _ _ g1) as [g2|e]; [apply IHouts | done].
Qed.


Lemma add_inputs_returns output_amount q ins d :
  (output_amount =? 0)%Z && negb (bool_decide (ins = [])) = false →
  ∃ d', add_inputs self output_amount q ins d = Returns d'.
Proof.
  revert d. induction ins as [|[i a] ins IH]; intros d Hsafe; [by exists d|].
  cbn in Hsafe |- *. rewrite andb_true_r in Hsafe. rewrite Hsafe.
  apply IH. by rewrite Hsafe.
Qed.

Lemma add_inputs_raises output_amount q ins d :
  (output_amount =? 0)%Z && negb (bool_decide (ins = [])) = true →
  add_inputs self output_amount q ins d = Raises ZeroDivisionError.
Proof.
  destruct ins as [|[i a] ins]; [by rewrite andb_false_r|].
  cbn. rewrite andb_true_r. by intros ->.
Qed.

Lemma step_inv g v g' :
  step self g v = Returns g' →
  divides_by_zero v = false
  ∧ compatible g v
  ∧ edges g' = (edges g ++ visit_edge self v)%list
  ∧ (∀ k, k ≠ visit_key v → nodes g' !! k = nodes g !! k)
  ∧ absorbed self (nodes g !! visit_key v) v (nodes g' !! visit_key v)
  ∧ (∀ n, nodes g' !! visit_key v = Some n → is_raw_node n = is_raw_visit v).
Proof.
  assert (Hedges : ∀ key parent name rate es,
    append_edge key parent name rate es = (es ++ append_edge key parent name rate [])%list).
  { intros key [[|c p]|] name rate es; cbn; by rewrite ?app_nil_r. }
  destruct v as [node parent|node r [o a] parent]; cbn [step visit_key is_raw_visit].
  - unfold visit_raw, setdefault, compatible, absorbed. cbn [visit_key is_raw_visit].
    destruct (nodes g !! ("raw:" ++ resource node)) as [[| name rate]|] eqn:Hcur.
    + rewrite Hcur. discriminate.
    + rewrite Hcur. intros [= <-]. cbn [nodes edges visit_edge].
      rewrite lookup_insert_eq. split; [done|]. split; [by intros n [= <-]|].
      split; [apply Hedges|]. split; [intros k Hk; by rewrite lookup_insert_ne|].
      split; [done | by intros n [= <-]].
    + rewrite lookup_insert_eq. intros [= <-]. cbn [nodes edges visit_edge].
      rewrite lookup_insert_eq. split; [done|]. split; [done|].
      split; [apply Hedges|].
      split; [intros k Hk; by rewrite !lookup_insert_ne|].
      split; [done | by intros n [= <-]].
  - unfold visit_output, setdefault, compatible, absorbed.
    cbn [visit_key is_raw_visit divides_by_zero snd fst].
    destruct (nodes g !! (node_building_type node ++ ":" ++ id r))
      as [[building name out rate count ins outs|]|] eqn:Hcur.
    + rewrite Hcur. intros Hstep. apply bind_Returns_inv in Hstep as (ins' & Hins & Hstep).
      injection Hstep as <-. cbn [nodes edges visit_edge fst].
      rewrite lookup_insert_eq.
      split.
      { destruct ((a =? 0)%Z && negb (bool_decide (inputs r = []))) eqn:Hzero; [|done].
        by rewrite add_inputs_raises in Hins. }
      split; [by intros n [= <-]|]. split; [apply Hedges|].
      split; [intros k Hk; by rewrite lookup_insert_ne|].
      split; [eauto | by intros n [= <-]].
    + rewrite Hcur. discriminate.
    + rewrite lookup_insert_eq. intros Hstep.
      apply bind_Returns_inv in Hstep as (ins' & Hins & Hstep).
      injection Hstep as <-. cbn [nodes edges visit_edge fst].
      rewrite lookup_insert_eq.
      split.
      { destruct ((a =? 0)%Z && negb (bool_decide (inputs r = []))) eqn:Hzero; [|done].
        by rewrite add_inputs_raises in Hins. }
      split; [done|]. split; [apply Hedges|].
      split; [intros k Hk; by rewrite !lookup_insert_ne|].
      split; [eauto | by intros n [= <-]].
Qed.

Lemma step_returns g v :
  divides_by_zero v = false → compatible g v → ∃ g', step self g v = Returns g'.
Proof.
  unfold compatible.
  destruct v as [node parent|node r [o a] parent];
    cbn [step visit_key is_raw_visit divides_by_zero snd].
  - intros _ Hcompatible. unfold visit_raw, setdefault.
    destruct (nodes g !! ("raw:" ++ resource node)) as [[| name rate]|] eqn:Hcur.
    + by specialize (Hcompatible _ eq_refl).
    + rewrite Hcur. eauto.
    + rewrite lookup_insert_eq. eauto.
  - intros Hsafe Hcompatible. unfold visit_output, setdefault.
    destruct (nodes g !! (node_building_type node ++ ":" ++ id r))
      as [[building name out rate count ins outs|]|] eqn:Hcur.
    + rewrite Hcur.
      destruct (add_inputs_returns a (quantity_per_minute node) (inputs r) ins Hsafe)
        as [ins' ->].
      cbn. eauto.
    + by specialize (Hcompatible _ eq_refl).
    + rewrite lookup_insert_eq.
      destruct (add_inputs_returns a (quantity_per_minute node) (inputs r) ∅ Hsafe)
        as [ins' ->].
      cbn. eauto.
Qed.


Lemma tallied_cons cur v mid vs new :
  absorbed self cur v mid → tallied self mid vs new → tallied self cur (v :: vs) new.
Proof.
  unfold absorbed, tallied, float_sum.
  destruct v as [node parent|node r output parent],
    cur as [[building name out rate count ins outs|name rate]|]; try done.
  - intros ->. destruct vs; [by intros -> | done].
  - intros ->. destruct vs; [by intros -> | done].
  - intros (ins' & outs' & ->). destruct vs; [intros ->; eauto | done].
  - intros (ins' & outs' & ->). destruct vs; [intros ->; eauto | done].
Qed.

Lemma for_each_step_nodes vs :
  ∀ g g', for_each (step self) vs g = Returns g' →
    ∀ key, tallied self (nodes g !! key)
             (List.filter (fun v => String.eqb (visit_key v) key) vs) (nodes g' !! key).
Proof.
  induction vs as [|v vs IH]; intros g g' Hrun key.
  - injection Hrun as <-. done.
  - cbn [for_each] in Hrun. apply bind_Returns_inv in Hrun as (g1 & Hstep & Hrun).
    apply step_inv in Hstep as (_ & _ & _ & Hother & Hkey & _).
    specialize (IH _ _ Hrun key). cbn [List.filter].
    destruct (String.eqb_spec (visit_key v) key) as [<- | Hne].
    + by eapply tallied_cons.
    + by rewrite <- Hother.
Qed.

Lemma for_each_step_edges vs :
  ∀ g g', for_each (step self) vs g = Returns g' →
    edges g' = (edges g ++ flat_map (visit_edge self) vs)%list.
Proof.
  induction vs as [|v vs IH]; intros g g' Hrun.
  - injection Hrun as <-. by rewrite app_nil_r.
  - cbn [for_each] in Hrun. apply bind_Returns_inv in Hrun as (g1 & Hstep & Hrun).
    apply step_inv in Hstep as (_ & _ & Hedges & _).
    rewrite (IH _ _ Hrun), Hedges. cbn [flat_map]. by rewrite app_assoc.
Qed.

Lemma for_each_step_returns vs :
  ∀ g,
    (∃ g', for_each (step self) vs g = Returns g') ↔
    (∀ v, In v vs → divides_by_zero v = false)
    ∧ (∀ v, In v vs → compatible g v)
    ∧ (∀ v1 v2, In v1 vs → In v2 vs → visit_key v1 = visit_key v2 →
                is_raw_visit v1 = is_raw_visit v2).
Proof.
  induction vs as [|v vs IH]; intros g.
  { split; [by intros _ | intros _; by exists g]. }
  cbn [for_each]. split.
  - intros [g' Hrun]. apply bind_Returns_inv in Hrun as (g1 & Hstep & Hrun).
    apply step_inv in Hstep as (Hsafe & Hcompatible & _ & Hother & Habsorbed & Hkind).
    destruct (proj1 (IH g1) (ex_intro _ g' Hrun)) as (Hsafes & Hcompatibles & Hpairs).
    assert (Hsame : ∀ v', In v' vs → visit_key v' = visit_key v →
                          is_raw_visit v' = is_raw_visit v).
    { intros v' Hv' Hkey. specialize (Hcompatibles v' Hv'). unfold compatible in Hcompatibles.
      rewrite Hkey in Hcompatibles.
      destruct (nodes g1 !! visit_key v) as [n|] eqn:Hn.
      - by rewrite <- (Hcompatibles n), (Hkind n).
      - unfold absorbed in Habsorbed.
        by destruct v, (nodes g !! _) as [[]|]; try destruct Habsorbed as (? & ? & ?). }
    split; [intros v' [<- | Hv']; [done | by apply Hsafes]|].
    split.
    + intros v' [<- | Hv']; [done|]. intros n Hn.
      destruct (decide (visit_key v' = visit_key v)) as [Hkey | Hkey].
      * rewrite Hkey in Hn. rewrite (Hcompatible n Hn). symmetry. by apply Hsame.
      * apply (Hcompatibles v' Hv'). by rewrite Hother.
    + intros v1 v2 [<- | H1] [<- | H2] Hkey; [done | | | by apply Hpairs].
      * symmetry. by apply Hsame.
      * by apply Hsame.
  - intros (Hsafes & Hcompatibles & Hpairs).
    destruct (step_returns g v) as [g1 Hstep]; [apply Hsafes; by left
                                               | apply Hcompatibles; by left |].
    rewrite Hstep. cbn. apply IH.
    apply step_inv in Hstep as (_ & _ & _ & Hother & _ & Hkind).
    split; [intros v' Hv'; apply Hsafes; by right|].
    split.
    + intros v' Hv' n Hn.
      destruct (decide (visit_key v' = visit_key v)) as [Hkey | Hkey].
      * rewrite Hkey in Hn. rewrite (Hkind n Hn). symmetry.
        apply Hpairs; [by right | by left | done].
      * apply (Hcompatibles v'); [by right|]. by rewrite <- Hother.
    + intros v1 v2 H1 H2. apply Hpairs; by right.
Qed.


(** *** Merging the edges *)

Lemma merge_edge_keys M e :
  map fst (merge_edge M e)
  = if decide (edge_ends e ∈ map fst M) then map fst M
    else (map fst M ++ [edge_ends e])%list.
Proof.
  induction M as [|[k m] M IH].
  { cbn. destruct (decide (edge_ends e ∈ [])) as [Hin | _];
      [by apply elem_of_nil in Hin | done]. }
  cbn [merge_edge map fst].
  destruct (decide (edge_ends e ∈ k :: map fst M)) as [Hin | Hnot].
  - destruct (decide (k = (edge_from e, edge_to e))) as [-> | Hne]; [done|].
    cbn [map fst]. rewrite IH.
    apply elem_of_cons in Hin as [Heq | Hin]; [by destruct Hne|].
    by destruct (decide (edge_ends e ∈ map fst M)).
  - destruct (decide (k = (edge_from e, edge_to e))) as [-> | Hne].
    { destruct Hnot. apply list_elem_of_here. }
    cbn [map fst]. rewrite IH.
    destruct (decide (edge_ends e ∈ map fst M)) as [Hin | _]; [|done].
    destruct Hnot. by apply list_elem_of_further.
Qed.

Lemma merge_edge_In M e k m' :
  NoDup (map fst M) →
  In (k, m') (merge_edge M e) →
  (k ≠ edge_ends e ∧ In (k, m') M)
  ∨ (k = edge_ends e
     ∧ ((∃ m, In (k, m) M
              ∧ m' = mkEdge (edge_from m) (edge_to m) (edge_resource m)
                       (edge_rate m + edge_rate e))
        ∨ (¬ In k (map fst M)
           ∧ m' = mkEdge (edge_from e) (edge_to e) (edge_resource e) (0 + edge_rate e)))).
Proof.
  induction M as [|[k0 m0] M IH]; intros Hkeys.
  - cbn. intros [[= <- <-] | []]. right. split; [done|]. right. split; [by intros [] | done].
  - apply NoDup_cons in Hkeys as [Hfresh Hkeys]. cbn [merge_edge].
    destruct (decide (k0 = (edge_from e, edge_to e))) as [-> | Hne].
    + intros [[= <- <-] | Hin].
      * right. split; [done|]. left. exists m0. split; [by left | done].
      * left. split; [|by right]. intros ->. apply Hfresh, list_elem_of_In.
        by apply (in_map fst) in Hin.
    + intros [[= <- <-] | Hin]; [left; split; [done | by left]|].
      destruct (IH Hkeys Hin) as [[Hk Hold] | [-> [(m & Hm & ->) | [Hnot ->]]]].
      * left. split; [done | by right].
      * right. split; [done|]. left. exists m. split; [by right | done].
      * right. split; [done|]. right. split; [|done].
        intros [Heq | Hin']; [by destruct Hne | done].
Qed.

(** The merged edges of a list of edges: one for each pair of ends, with
    the resource of the first edge between them and the sum of the rates. *)
Lemma merge_edges_spec es :
  let M := fold_left merge_edge es [] in
  NoDup (map fst M)
  ∧ (∀ l, In l es → In (edge_ends l) (map fst M))
  ∧ ∀ k m, In (k, m) M →
      edge_ends m = k
      ∧ ∃ l ls, List.filter (fun l => bool_decide (edge_ends l = k)) es = l :: ls
                ∧ edge_resource m = edge_resource l
                ∧ edge_rate m = float_sum (map edge_rate (l :: ls)).
Proof.
  induction es as [|e es IH] using rev_ind; [by split; [constructor|]|].
  rewrite fold_left_app. cbn [fold_left]. cbn zeta in IH |- *.
  destruct IH as (Hkeys & Hall & Hentries). set (M := fold_left merge_edge es []) in *.
  split; [|split].
  - rewrite merge_edge_keys.
    destruct (decide (edge_ends e ∈ map fst M)) as [Hin | Hnot]; [done|].
    apply NoDup_app. split; [done|]. split; [|by apply NoDup_singleton].
    intros k Hk Hk'. apply list_elem_of_singleton in Hk'. by subst k.
  - intros l Hl. rewrite merge_edge_keys. apply in_app_iff in Hl as [Hl | [<- | []]].
    + destruct (decide (edge_ends e ∈ map fst M)); [|apply in_app_iff; left]; by apply Hall.
    + destruct (decide (edge_ends e ∈ map fst M)) as [Hin | Hnot]; [by apply list_elem_of_In|].
      apply in_app_iff. right. by left.
  - intros k m' Hin. rewrite List.filter_app. cbn [List.filter].
    apply (merge_edge_In _ _ _ _ Hkeys) in Hin
      as [[Hk Hold] | [-> [(m & Hm & ->) | [Hnot ->]]]].
    + rewrite bool_decide_eq_false_2 by done. rewrite app_nil_r. by apply Hentries.
    + destruct (Hentries _ _ Hm) as (Hends & l & ls & Hfilter & Hresource & Hrate).
      split; [done|]. rewrite bool_decide_eq_true_2 by done. rewrite Hfilter.
      exists l, (ls ++ [e])%list. split; [done|]. split; [done|]. cbn [edge_rate].
      unfold float_sum in *. rewrite app_comm_cons, map_app, fold_left_app. cbn.
      by rewrite Hrate.
    + split; [done|]. rewrite bool_decide_eq_true_2 by done.
      assert (Hnone : List.filter (fun l => bool_decide (edge_ends l = edge_ends e)) es = []).
      { destruct (List.filter _ es) as [|l ls] eqn:Hfilter; [done|].
        assert (Hl : In l (List.filter (fun l => bool_decide (edge_ends l = edge_ends e)) es))
          by (rewrite Hfilter; by left).
        apply filter_In in Hl as [Hl Hends]. apply bool_decide_eq_true_1 in Hends.
        destruct Hnot. rewrite <- Hends. by apply Hall. }
      rewrite Hnone. by exists e, [].
Qed.


(** X13.  The nodes of the graph that [build_graph_view] returns.  A key
    that no visit of [traverse] updates is absent.  At the key of a node
    without recipe ("raw:" and its resource) stands a raw entry with the
    display name of the resource and the sum of the rates of the visits at
    that key, whatever the label of the node (base resource or "NO RECIPE").
    At the key of a node with a recipe (the building type, ":" and the
    identifier of the recipe) stands a production entry with the building,
    the recipe name and the output of the first visit, and the sums of the
    rates and of the building counts of the visits at that key; a node
    whose recipe has several outputs is summed once for each of them. *)
Theorem graph_nodes_spec :
  ∀ root g,
    build_graph_view self root = Returns g →
    ∀ key,
      match List.filter (fun v => String.eqb (visit_key v) key) (visits root None) with
      | [] => nodes g !! key = None
      | (raw_visit node _ :: _) as vs =>
          nodes g !! key
          = Some (raw (get_display_name self (resource node))
                    (float_sum (map visit_rate vs)))
      | (output_visit node r output _ :: _) as vs =>
          ∃ ins outs,
            nodes g !! key
            = Some (production (node_building_type node) (display_name r)
                      (get_display_name self (fst output))
                      (float_sum (map visit_rate vs))
                      (float_sum (map visit_count vs)) ins outs)
      end.
Proof.
  intros root g Hview key. unfold build_graph_view in Hview.
  apply bind_Returns_inv in Hview as (g0 & Hrun & Hview). injection Hview as <-.
  rewrite traverse_visits in Hrun.
  pose proof (for_each_step_nodes _ _ _ Hrun key) as Htally.
  cbn [nodes] in Htally |- *. rewrite lookup_empty in Htally. unfold tallied in Htally.
  by destruct (List.filter _ _) as [|[node parent|node r output parent] vs].
Qed.

(** X14.  The edges of the graph that [build_graph_view] returns: no two of
    them have the same ends; every link that [traverse] appends (one for
    each visit below the root, from the key of the visit to the key of its
    parent) has its ends joined by an edge; and every edge carries the
    resource of the first link between its ends and the sum of the rates of
    all the links between them. *)
Theorem graph_edges_spec :
  ∀ root g,
    build_graph_view self root = Returns g →
    NoDup (map edge_ends (edges g))
    ∧ (∀ l, In l (flat_map (visit_edge self) (visits root None)) →
            In (edge_ends l) (map edge_ends (edges g)))
    ∧ ∀ e, In e (edges g) →
        ∃ l ls,
          List.filter (fun l => bool_decide (edge_ends l = edge_ends e))
            (flat_map (visit_edge self) (visits root None)) = l :: ls
          ∧ edge_resource e = edge_resource l
          ∧ edge_rate e = float_sum (map edge_rate (l :: ls)).
Proof.
  intros root g Hview. unfold build_graph_view in Hview.
  apply bind_Returns_inv in Hview as (g0 & Hrun & Hview). injection Hview as <-.
  rewrite traverse_visits in Hrun. apply for_each_step_edges in Hrun.
  cbn [edges app] in Hrun |- *. rewrite Hrun.
  destruct (merge_edges_spec (flat_map (visit_edge self) (visits root None)))
    as (Hkeys & Hall & Hentries).
  set (M := fold_left merge_edge _ []) in *.
  assert (Hends : map edge_ends (map snd M) = map fst M).
  { rewrite map_map. apply map_ext_in. intros [k m] Hin. by apply Hentries. }
  rewrite Hends. split; [done|]. split; [done|].
  intros e He. apply in_map_iff in He as ([k m] & <- & Hin).
  destruct (Hentries k m Hin) as (<- & Hsum). done.
Qed.

(** X15.  [build_graph_view] returns a graph exactly when no visit divides
    by zero (an output of amount 0 in a recipe that has inputs raises
    [ZeroDivisionError]) and no two visits of different kinds update the
    same key (a production key that is also the key "raw:..." of a node
    without recipe raises [KeyError]). *)
Theorem build_graph_view_returns_iff :
  ∀ root,
    (∃ g, build_graph_view self root = Returns g) ↔
    (∀ v, In v (visits root None) → divides_by_zero v = false)
    ∧ (∀ v1 v2, In v1 (visits root None) → In v2 (visits root None) →
                visit_key v1 = visit_key v2 → is_raw_visit v1 = is_raw_visit v2).
Proof.
  intros root. unfold build_graph_view. rewrite traverse_visits.
  pose proof (for_each_step_returns (visits root None) (mkGraph ∅ [])) as Hreturns.
  split.
  - intros [g Hview]. apply bind_Returns_inv in Hview as (g0 & Hrun & _).
    destruct (proj1 Hreturns (ex_intro _ g0 Hrun)) as (Hsafe & _ & Hpairs). by split.
  - intros [Hsafe Hpairs]. destruct (proj2 Hreturns) as [g0 ->]; [|by eexists].
    split; [done|]. split; [|done]. intros v _ n Hn. cbn in Hn. by rewrite lookup_empty in Hn.
Qed.

End graph_view.

Lemma graph_nodes_spec_witness :
  web_calculator.build_graph_view iron_catalog iron_tree = web_calculator.Returns iron_graph
  ∧ ∀ key,
      match List.filter (fun v => String.eqb (web_calculator.visit_key v) key)
              (web_calculator.visits iron_tree None) with
      | [] => web_calculator.nodes iron_graph !! key = None
      | (web_calculator.raw_visit node _ :: _) as vs =>
          web_calculator.nodes iron_graph !! key
          = Some (web_calculator.raw (get_display_name iron_catalog (resource node))
                    (float_sum (map web_calculator.visit_rate vs)))
      | (web_calculator.output_visit node r output _ :: _) as vs =>
          ∃ ins outs,
            web_calculator.nodes iron_graph !! key
            = Some (web_calculator.production (node_building_type node) (display_name r)
                      (get_display_name iron_catalog (fst output))
                      (float_sum (map web_calculator.visit_rate vs))
                      (float_sum (map web_calculator.visit_count vs)) ins outs)
      end.
Proof.
  split; [reflexivity|].
  exact (graph_nodes_spec iron_catalog iron_tree iron_graph eq_refl).
Defined.

Lemma graph_edges_spec_witness :
  web_calculator.build_graph_view iron_catalog iron_tree = web_calculator.Returns iron_graph
  ∧ NoDup (map web_calculator.edge_ends (web_calculator.edges iron_graph))
  ∧ (∀ l, In l (flat_map (web_calculator.visit_edge iron_catalog)
                  (web_calculator.visits iron_tree None)) →
          In (web_calculator.edge_ends l)
            (map web_calculator.edge_ends (web_calculator.edges iron_graph)))
  ∧ ∀ e, In e (web_calculator.edges iron_graph) →
      ∃ l ls,
        List.filter
          (fun l => bool_decide (web_calculator.edge_ends l = web_calculator.edge_ends e))
          (flat_map (web_calculator.visit_edge iron_catalog)
             (web_calculator.visits iron_tree None)) = l :: ls
        ∧ web_calculator.edge_resource e = web_calculator.edge_resource l
        ∧ web_calculator.edge_rate e = float_sum (map web_calculator.edge_rate (l :: ls)).
Proof.
  split; [reflexivity|].
  exact (graph_edges_spec iron_catalog iron_tree iron_graph eq_refl).
Defined.

(** A recipe with two outputs is counted twice, and so is what it consumes:
    one smelter and thirty ore a minute in the tree, two and sixty in the
    graph. *)
Example two_outputs_are_counted_twice :
  ∃ tree g,
    calculate_production_chain 3 twin_catalog "PLATE" 30%float 1 true None = Ok tree
    ∧ building_count tree = 1%float
    ∧ map quantity_per_minute (children tree) = [30%float]
    ∧ web_calculator.build_graph_view twin_catalog tree = web_calculator.Returns g
    ∧ (∃ ins outs,
         web_calculator.nodes g !! "Smelter:twin_plate"
         = Some (web_calculator.production "Smelter" "twin_plate" "Plate" 60 2 ins outs))
    ∧ web_calculator.nodes g !! "raw:ORE" = Some (web_calculator.raw "Ore" 60).
Proof.
  eexists _, _. split; [reflexivity|]. split; [reflexivity|]. split; [reflexivity|].
  split; [reflexivity|]. split; [eexists _, _|]; reflexivity.
Qed.

(** Trees that the engine returns and the graph view raises on: an output
    of amount 0 beside the one asked for, and a production key that is the
    key of a raw resource. *)
Example graph_view_raises :
  (∃ tree,
     calculate_production_chain 3 slag_catalog "PLATE" 30%float 1 true None = Ok tree
     ∧ web_calculator.build_graph_view slag_catalog tree
       = web_calculator.Raises web_calculator.ZeroDivisionError)
  ∧ (∃ tree,
       calculate_production_chain 3 dust_catalog "DUST" 30%float 1 true None = Ok tree
       ∧ web_calculator.build_graph_view dust_catalog tree
         = web_calculator.Raises web_calculator.KeyError).
Proof. split; eexists; (split; [reflexivity|]); reflexivity. Qed.
